(** * Snake (Go + Ebiten): the game-state update loop of [cmd/main.go]

    The development embeds the game core of [cmd/main.go] -- [reset],
    [placeFood] and [Update] -- as Rocq functions over an explicit game
    record, an explicit random source and an explicit keyboard snapshot,
    and proves the behavioural properties of the state machine.

    Rendering ([Draw], [Layout], the tile images) never feeds back into the
    game state and is left out. *)

From Stdlib Require Import ZArith List Bool Lia Arith.
From Stdlib Require String DecimalString.
Import ListNotations.
Import String.StringSyntax.
Delimit Scope string_scope with string.

Local Open Scope Z_scope.

(** ** Go's [int]

    On the 64-bit targets the game is built for, [int] is a signed 64-bit
    integer whose [+], [-] and [++] wrap around silently.  Integers are kept in
    [Z] and every arithmetic result goes through [wrap]. *)
Module GoInt.

Definition bits : Z := 64.
Definition half : Z := 2 ^ (bits - 1).
Definition modulus : Z := 2 ^ bits.
Definition min_int : Z := - half.
Definition max_int : Z := half - 1.

Definition wrap (z : Z) : Z := (z + half) mod modulus - half.

Definition add (a b : Z) : Z := wrap (a + b).
Definition sub (a b : Z) : Z := wrap (a - b).
Definition incr (a : Z) : Z := add a 1.

(** Go's [%] truncates towards zero, as [Z.rem] does. *)
Definition rem (a b : Z) : Z := Z.rem a b.

Definition in_range (z : Z) : Prop := min_int <= z <= max_int.

End GoInt.

(** ** Configuration constants *)

Definition tileSize : Z := 16.
Definition gridW : Z := 40.
Definition gridH : Z := 30.
Definition baseTickSpeed : Z := 8.
Definition speedUpEvery : Z := 5.
Definition speedDelta : Z := 1.

(** The floor of the tick speed is the literal [2] in [Update]. *)
Definition minTickSpeed : Z := 2.

(** ** Data model *)

(** [type Point struct { X, Y int }] *)
Record Point : Type := mkPoint { X : Z; Y : Z }.

(** Go's [==] on the struct: field-wise comparison. *)
Definition Point_eqb (p q : Point) : bool :=
  (X p =? X q) && (Y p =? Y q).

(** [type Game struct { ... }], without the three tile images. *)
Record Game : Type := mkGame {
  snake : list Point;
  dir : Point;
  nextDir : Point;
  food : Point;
  score : Z;
  tickCount : Z;
  tickSpeed : Z;
  gameOver : bool;
  started : bool
}.

Definition with_snake (v : list Point) (g : Game) : Game :=
  mkGame v (dir g) (nextDir g) (food g) (score g) (tickCount g)
         (tickSpeed g) (gameOver g) (started g).
Definition with_dir (v : Point) (g : Game) : Game :=
  mkGame (snake g) v (nextDir g) (food g) (score g) (tickCount g)
         (tickSpeed g) (gameOver g) (started g).
Definition with_nextDir (v : Point) (g : Game) : Game :=
  mkGame (snake g) (dir g) v (food g) (score g) (tickCount g)
         (tickSpeed g) (gameOver g) (started g).
Definition with_food (v : Point) (g : Game) : Game :=
  mkGame (snake g) (dir g) (nextDir g) v (score g) (tickCount g)
         (tickSpeed g) (gameOver g) (started g).
Definition with_score (v : Z) (g : Game) : Game :=
  mkGame (snake g) (dir g) (nextDir g) (food g) v (tickCount g)
         (tickSpeed g) (gameOver g) (started g).
Definition with_tickCount (v : Z) (g : Game) : Game :=
  mkGame (snake g) (dir g) (nextDir g) (food g) (score g) v
         (tickSpeed g) (gameOver g) (started g).
Definition with_tickSpeed (v : Z) (g : Game) : Game :=
  mkGame (snake g) (dir g) (nextDir g) (food g) (score g) (tickCount g)
         v (gameOver g) (started g).
Definition with_gameOver (v : bool) (g : Game) : Game :=
  mkGame (snake g) (dir g) (nextDir g) (food g) (score g) (tickCount g)
         (tickSpeed g) v (started g).
Definition with_started (v : bool) (g : Game) : Game :=
  mkGame (snake g) (dir g) (nextDir g) (food g) (score g) (tickCount g)
         (tickSpeed g) (gameOver g) v.

(** The zero value [&Game{tickSpeed: baseTickSpeed}] built by [NewGame]. *)
Definition zeroGame : Game :=
  mkGame [] (mkPoint 0 0) (mkPoint 0 0) (mkPoint 0 0) 0 0 baseTickSpeed
         false false.

(** ** The environment *)

(** The process-wide generator of [math/rand]: the sequence of raw values it
    will hand out (fixed by the seed) and how many were consumed so far. *)
Record Rng : Type := mkRng { stream : nat -> Z; cursor : nat }.

(** [rand.Intn(n)], for [n > 0]: a value in [[0,n)], one raw value consumed. *)
Definition Intn (n : Z) (r : Rng) : Z * Rng :=
  (stream r (cursor r) mod n, mkRng (stream r) (S (cursor r))).

(** The keys [Update] polls with [ebiten.IsKeyPressed]. *)
Record Keys : Type := mkKeys {
  KeyR : bool;
  KeyArrowUp : bool; KeyW : bool;
  KeyArrowDown : bool; KeyS : bool;
  KeyArrowLeft : bool; KeyA : bool;
  KeyArrowRight : bool; KeyD : bool
}.

Definition noKeys : Keys :=
  mkKeys false false false false false false false false false.

(** ** Outcomes

    [placeFood] is an unbounded loop and [g.snake[0]] panics on an empty
    slice, so every operation yields a [result]: [Ok] with the final state,
    [Panic] for the run-time error, [Spin] when the loop was still running
    after the allotted number of rounds. *)
Inductive result (A : Type) : Type :=
| Ok (a : A)
| Panic
| Spin.
Arguments Ok {A} a.
Arguments Panic {A}.
Arguments Spin {A}.

(** ** Operations *)

(** The inner [for _, s := range g.snake] scan of [placeFood] and the
    self-collision scan of [Update]: is some cell of [cells] equal to [p]? *)
Fixpoint occupies (cells : list Point) (p : Point) : bool :=
  match cells with
  | [] => false
  | s :: rest => if Point_eqb s p then true else occupies rest p
  end.

(** [func (g *Game) placeFood()]: draw [x], then [y]; retry while the cell is
    on the snake.  [fuel] bounds the number of rounds of the outer [for]. *)
Fixpoint placeFood (fuel : nat) (r : Rng) (g : Game) : result (Game * Rng) :=
  match fuel with
  | O => Spin
  | S fuel' =>
      let (x, r1) := Intn gridW r in
      let (y, r2) := Intn gridH r1 in
      let p := mkPoint x y in
      if occupies (snake g) p then placeFood fuel' r2 g
      else Ok (with_food p g, r2)
  end.

(** [func (g *Game) reset()] *)
Definition reset (fuel : nat) (r : Rng) (g : Game) : result (Game * Rng) :=
  let cx := gridW / 2 in
  let cy := gridH / 2 in
  let g := with_snake [mkPoint cx cy; mkPoint (cx - 1) cy; mkPoint (cx - 2) cy] g in
  let g := with_dir (mkPoint 1 0) g in
  let g := with_nextDir (dir g) g in
  match placeFood fuel r g with
  | Ok (g, r') =>
      let g := with_score 0 g in
      let g := with_tickCount 0 g in
      let g := with_tickSpeed baseTickSpeed g in
      let g := with_gameOver false g in
      let g := with_started true g in
      Ok (g, r')
  | Panic => Panic
  | Spin => Spin
  end.

(** [func NewGame() *Game], game state only. *)
Definition NewGame (fuel : nat) (r : Rng) : result (Game * Rng) :=
  reset fuel r zeroGame.

(** The four directional intents of the input block of [Update]. *)
Inductive Intent : Type := Up | Down | Left | Right.

(** The unit delta an intent stands for. *)
Definition delta (i : Intent) : Point :=
  match i with
  | Up => mkPoint 0 (-1)
  | Down => mkPoint 0 1
  | Left => mkPoint (-1) 0
  | Right => mkPoint 1 0
  end.

(** The body of one of the four input [if]s of [Update] (lines 111-130):
    the guard reads [g.dir], the assignment writes [g.nextDir]. *)
Definition set_direction (i : Intent) (g : Game) : Game :=
  match i with
  | Up => if negb (Y (dir g) =? 1) then with_nextDir (mkPoint 0 (-1)) g else g
  | Down => if negb (Y (dir g) =? -1) then with_nextDir (mkPoint 0 1) g else g
  | Left => if negb (X (dir g) =? 1) then with_nextDir (mkPoint (-1) 0) g else g
  | Right => if negb (X (dir g) =? -1) then with_nextDir (mkPoint 1 0) g else g
  end.

(** The input block of [Update]: Up, Down, Left, Right, in this order, each
    for either of its two keys. *)
Definition handle_input (k : Keys) (g : Game) : Game :=
  let g := if KeyArrowUp k || KeyW k then set_direction Up g else g in
  let g := if KeyArrowDown k || KeyS k then set_direction Down g else g in
  let g := if KeyArrowLeft k || KeyA k then set_direction Left g else g in
  let g := if KeyArrowRight k || KeyD k then set_direction Right g else g in
  g.

(** The wall test of [Update]. *)
Definition out_of_bounds (p : Point) : bool :=
  (X p <? 0) || (X p >=? gridW) || (Y p <? 0) || (Y p >=? gridH).

(** [Point{head.X + g.dir.X, head.Y + g.dir.Y}] *)
Definition step_from (head d : Point) : Point :=
  mkPoint (GoInt.add (X head) (X d)) (GoInt.add (Y head) (Y d)).

(** The rest of [Update], from [if g.gameOver] to the end (lines 132-179):
    one logical tick. *)
Definition tick (fuel : nat) (r : Rng) (g : Game) : result (Game * Rng) :=
  if gameOver g then Ok (g, r)
  else
    let g := with_tickCount (GoInt.incr (tickCount g)) g in
    if tickCount g <? tickSpeed g then Ok (g, r)
    else
      let g := with_tickCount 0 g in
      let g := with_dir (nextDir g) g in
      match snake g with
      | [] => Panic
      | head :: _ =>
          let newHead := step_from head (dir g) in
          if out_of_bounds newHead then Ok (with_gameOver true g, r)
          else if occupies (snake g) newHead then Ok (with_gameOver true g, r)
          else
            let g := with_snake (newHead :: snake g) g in
            if Point_eqb newHead (food g) then
              let g := with_score (GoInt.incr (score g)) g in
              let g :=
                if (GoInt.rem (score g) speedUpEvery =? 0) && (tickSpeed g >? 2)
                then with_tickSpeed (GoInt.sub (tickSpeed g) speedDelta) g
                else g in
              placeFood fuel r g
            else
              Ok (with_snake (removelast (snake g)) g, r)
      end.

(** [func (g *Game) Update() error] *)
Definition Update (fuel : nat) (k : Keys) (r : Rng) (g : Game)
  : result (Game * Rng) :=
  if KeyR k && gameOver g then reset fuel r g
  else tick fuel r (handle_input k g).

(** ** Vocabulary of the properties *)

(** A cell of the [gridW] x [gridH] board. *)
Definition in_grid (p : Point) : Prop :=
  0 <= X p < gridW /\ 0 <= Y p < gridH.

(** The opposite of a direction. *)
Definition reverse (d : Point) : Point := mkPoint (- X d) (- Y d).

(** The head cell, [g.snake[0]], when there is one. *)
Definition head_of (g : Game) : option Point :=
  match snake g with
  | [] => None
  | h :: _ => Some h
  end.

(** The tail cell, [g.snake[len(g.snake)-1]], when there is one. *)
Definition tail_of (g : Game) : option Point :=
  match snake g with
  | [] => None
  | h :: rest => Some (last rest h)
  end.

(** The cell the head moves to at the next movement: the head plus the
    direction that gets committed, which is the buffered [nextDir]. *)
Definition new_head (g : Game) : option Point :=
  match snake g with
  | [] => None
  | h :: _ => Some (step_from h (nextDir g))
  end.

(** The game is not over. *)
Definition running (g : Game) : Prop := gameOver g = false.

(** The frame counter reaches the tick speed at this call: the snake moves. *)
Definition throttle_boundary (g : Game) : Prop :=
  (GoInt.incr (tickCount g) <? tickSpeed g) = false.

(** The cell [placeFood] draws in round [k] (counted from 0) when it is
    entered with generator [r]. *)
Definition drawn (r : Rng) (k : nat) : Point :=
  mkPoint (stream r (cursor r + 2 * k)%nat mod gridW)
          (stream r (cursor r + 2 * k + 1)%nat mod gridH).

(** The generator after [k] rounds of [placeFood]. *)
Definition after_rounds (r : Rng) (k : nat) : Rng :=
  mkRng (stream r) (cursor r + 2 * k)%nat.

(** A generator that replays a finite tape, then zeros. *)
Definition tape (l : list Z) : Rng := mkRng (fun k => nth k l 0) 0.

(** Every cell of the board, column by column. *)
Definition all_cells : list Point :=
  flat_map (fun x => map (fun y => mkPoint (Z.of_nat x) (Z.of_nat y))
                         (seq 0 (Z.to_nat gridH)))
           (seq 0 (Z.to_nat gridW)).

(** The state [Update] has built when it reaches the wall test: counter
    cleared, buffered direction committed. *)
Definition committed (g : Game) : Game :=
  with_dir (nextDir g) (with_tickCount 0 g).

(** The state [Update] has built when it calls [placeFood]: head prepended,
    score and possibly speed adjusted. *)
Definition fed (p : Point) (g : Game) : Game :=
  let g := with_snake (p :: snake g) (committed g) in
  let g := with_score (GoInt.incr (score g)) g in
  if (GoInt.rem (score g) speedUpEvery =? 0) && (tickSpeed g >? 2)
  then with_tickSpeed (GoInt.sub (tickSpeed g) speedDelta) g
  else g.

(** The input block is the four intents tried in order. *)
Definition intents_of (k : Keys) : list Intent :=
  (if KeyArrowUp k || KeyW k then [Up] else []) ++
  (if KeyArrowDown k || KeyS k then [Down] else []) ++
  (if KeyArrowLeft k || KeyA k then [Left] else []) ++
  (if KeyArrowRight k || KeyD k then [Right] else []).

(** The snake [reset] lays out: three cells, head at the centre of the board,
    body to its left. *)
Definition initial_snake : list Point :=
  [mkPoint 20 15; mkPoint 19 15; mkPoint 18 15].

(** [n] ticks in a row, each with the same allowance for the food loop. *)
Fixpoint ticks (n fuel : nat) (r : Rng) (g : Game) : result (Game * Rng) :=
  match n with
  | O => Ok (g, r)
  | S n' =>
      match tick fuel r g with
      | Ok (g', r') => ticks n' fuel r' g'
      | Panic => Panic
      | Spin => Spin
      end
  end.

(** The five ways a tick can return, with the state each one leaves. *)
Inductive tick_outcome (g : Game) (r : Rng) : Game -> Rng -> Prop :=
| out_frozen :
    gameOver g = true ->
    tick_outcome g r g r
| out_wait :
    running g -> ~ throttle_boundary g ->
    tick_outcome g r (with_tickCount (GoInt.incr (tickCount g)) g) r
| out_crash p :
    running g -> throttle_boundary g -> new_head g = Some p ->
    ~ in_grid p \/ In p (snake g) ->
    tick_outcome g r (with_gameOver true (committed g)) r
| out_eat k :
    running g -> throttle_boundary g -> new_head g = Some (food g) ->
    in_grid (food g) -> ~ In (food g) (snake g) ->
    ~ In (drawn r k) (food g :: snake g) ->
    tick_outcome g r (with_food (drawn r k) (fed (food g) g))
                 (after_rounds r (S k))
| out_move p :
    running g -> throttle_boundary g -> new_head g = Some p ->
    in_grid p -> ~ In p (snake g) -> p <> food g ->
    tick_outcome g r (with_snake (removelast (p :: snake g)) (committed g)) r.

(** ** Outcomes of the draws

    [rand.Intn] is uniform on its range, so the cells drawn in [n] rounds are
    one of the [1200 ^ n] sequences of [n] board cells, each as likely as any
    other. *)

(** All words of length [n] over the letters [univ]. *)
Fixpoint words {A : Type} (univ : list A) (n : nat) : list (list A) :=
  match n with
  | O => [[]]
  | S n' => flat_map (fun a => map (cons a) (words univ n')) univ
  end.

(** Every sequence of [n] drawn cells. *)
Definition sequences (n : nat) : list (list Point) := words all_cells n.

(** A generator that draws the given cells, in order. *)
Definition rng_of_cells (cs : list Point) : Rng :=
  tape (flat_map (fun c => [X c; Y c]) cs).

(** [placeFood] is still in its loop after [n] rounds. *)
Definition still_looping (n : nat) (r : Rng) (g : Game) : bool :=
  match placeFood n r g with
  | Spin => true
  | _ => false
  end.

(** The number of board cells the snake covers. *)
Definition covered (g : Game) : nat :=
  length (filter (occupies (snake g)) all_cells).

(** ** Sample runs

    A generator that puts the food right in front of the snake five times,
    then at (5,5), and the states of the game it leads to. *)
Definition demo_rng : Rng :=
  tape [21; 15; 22; 15; 23; 15; 24; 15; 25; 15; 5; 5].

(** After [NewGame] and seven frames: about to move onto the first food. *)
Definition eat_scenario : Game :=
  mkGame [mkPoint 20 15; mkPoint 19 15; mkPoint 18 15]
         (mkPoint 1 0) (mkPoint 1 0) (mkPoint 21 15) 0 7 8 false true.

(** After 39 frames: four foods eaten, about to move onto the fifth. *)
Definition speedup_scenario : Game :=
  mkGame [mkPoint 24 15; mkPoint 23 15; mkPoint 22 15; mkPoint 21 15;
          mkPoint 20 15; mkPoint 19 15; mkPoint 18 15]
         (mkPoint 1 0) (mkPoint 1 0) (mkPoint 25 15) 4 7 8 false true.

(** Head at the left wall, moving left. *)
Definition wall_scenario : Game :=
  mkGame [mkPoint 0 15; mkPoint 1 15; mkPoint 2 15]
         (mkPoint (-1) 0) (mkPoint (-1) 0) (mkPoint 5 5) 0 7 8 false true.

(** A snake curled up so that a right turn runs into its own body. *)
Definition coil_scenario : Game :=
  mkGame [mkPoint 5 5; mkPoint 5 6; mkPoint 6 6; mkPoint 6 5; mkPoint 7 5]
         (mkPoint 0 (-1)) (mkPoint 1 0) (mkPoint 9 9) 2 7 8 false true.

(** A four-cell snake in a square: a right turn lands on the tail cell. *)
Definition square_scenario : Game :=
  mkGame [mkPoint 1 1; mkPoint 1 2; mkPoint 2 2; mkPoint 2 1]
         (mkPoint 0 (-1)) (mkPoint 1 0) (mkPoint 5 5) 1 7 8 false true.

(** The game after the head hit the left wall. *)
Definition over_scenario : Game :=
  mkGame [mkPoint 0 15; mkPoint 1 15; mkPoint 2 15]
         (mkPoint (-1) 0) (mkPoint (-1) 0) (mkPoint 5 5) 0 0 8 true true.

(** ** The data-model invariant *)

Record Inv (g : Game) : Prop := mkInv {
  inv_nonempty : snake g <> [];
  inv_cells : Forall in_grid (snake g);
  inv_nodup : NoDup (snake g);
  inv_food_grid : in_grid (food g);
  inv_food_free : ~ In (food g) (snake g);
  inv_score : score g + 3 = Z.of_nat (length (snake g));
  inv_speed : minTickSpeed <= tickSpeed g <= baseTickSpeed;
  inv_count : 0 <= tickCount g < tickSpeed g;
  inv_dir : exists i, dir g = delta i;
  inv_nextDir : exists i, nextDir g = delta i;
  inv_no_reverse : nextDir g <> reverse (dir g)
}.

(** ** Reachable states

    The states the program can be in at the entry of [Update], after its
    input block and at its return, together with the generator: started by
    [NewGame], restarted by the [R] branch, moved on by the input block and
    by the tick. *)
Inductive reachable : Game -> Rng -> Prop :=
| reach_NewGame fuel r g r' :
    NewGame fuel r = Ok (g, r') -> reachable g r'
| reach_restart fuel g r g' r' :
    reachable g r -> gameOver g = true ->
    reset fuel r g = Ok (g', r') -> reachable g' r'
| reach_input k g r :
    reachable g r -> reachable (handle_input k g) r
| reach_tick fuel g r g' r' :
    reachable g r -> tick fuel r g = Ok (g', r') -> reachable g' r'.

(** Play between resets: calls of [Update] that do not take the [R] branch. *)
Inductive plays : Game * Rng -> Game * Rng -> Prop :=
| plays_refl s : plays s s
| plays_step g r fuel k g1 r1 s :
    KeyR k && gameOver g = false ->
    Update fuel k r g = Ok (g1, r1) ->
    plays (g1, r1) s ->
    plays (g, r) s.

(** ** Whole frames *)

(** [Update] called once per frame, with the keys held in each frame. *)
Fixpoint frames (fuel : nat) (ks : list Keys) (r : Rng) (g : Game)
  : result (Game * Rng) :=
  match ks with
  | [] => Ok (g, r)
  | k :: ks' =>
      match Update fuel k r g with
      | Ok (g', r') => frames fuel ks' r' g'
      | Panic => Panic
      | Spin => Spin
      end
  end.

(** The same keys with [R] released. *)
Definition release_R (k : Keys) : Keys :=
  mkKeys false (KeyArrowUp k) (KeyW k) (KeyArrowDown k) (KeyS k)
         (KeyArrowLeft k) (KeyA k) (KeyArrowRight k) (KeyD k).

(** ** Shape of the snake *)

(** Two cells that share an edge. *)
Definition adjacent (p q : Point) : Prop :=
  Z.abs (X p - X q) + Z.abs (Y p - Y q) = 1.

(** Each cell of the list shares an edge with the next one. *)
Fixpoint chain (cells : list Point) : Prop :=
  match cells with
  | [] => True
  | p :: rest =>
      match rest with
      | [] => True
      | q :: _ => adjacent p q /\ chain rest
      end
  end.

(** The tick speed that goes with a score: one frame less per
    [speedUpEvery] points, down to the floor. *)
Definition speed_for_score (s : Z) : Z :=
  Z.max minTickSpeed (baseTickSpeed - s / speedUpEvery).

(** The intents of the input block that pass their guard when the snake
    moves along [d]: all but the reverse of [d]. *)
Definition not_reverse_of (d : Point) (i : Intent) : bool :=
  negb (Point_eqb (delta i) (reverse d)).

(** ** Rendering

    [Draw] only reads the game and issues calls on the screen; it is kept as
    the list of those calls, in order.  A translation offset
    [float64(p.X*tileSize)] is kept as the [int] that is converted. *)

Definition screenW : Z := gridW * tileSize.
Definition screenH : Z := gridH * tileSize.

(** [int] multiplication. *)
Definition int_mul (a b : Z) : Z := GoInt.wrap (a * b).

(** The three tile images of [Game]. *)
Inductive Tile : Type := tileSnake | tileHead | tileFood.

(** The calls [Draw] makes: [screen.Fill(color.RGBA{...})],
    [screen.DrawImage(tile, op)] with the translation of [op], and
    [ebitenutil.DebugPrintAt(screen, text, x, y)]. *)
Inductive DrawCmd : Type :=
| Fill (red green blue alpha : Z)
| DrawImage (t : Tile) (tx ty : Z)
| DebugPrintAt (text : String.string) (x y : Z).

(** [%d] of [fmt.Sprintf]: decimal digits, with a minus sign if negative. *)
Definition fmt_d (z : Z) : String.string :=
  DecimalString.NilZero.string_of_int (Z.to_int z).

(** The [for i, p := range g.snake] loop of [Draw], from index [i] on. *)
Fixpoint draw_snake (i : nat) (cells : list Point) : list DrawCmd :=
  match cells with
  | [] => []
  | p :: rest =>
      DrawImage (if Nat.eqb i 0 then tileHead else tileSnake)
                (int_mul (X p) tileSize) (int_mul (Y p) tileSize)
      :: draw_snake (S i) rest
  end.

(** [func (g *Game) Draw(screen *ebiten.Image)] *)
Definition Draw (g : Game) : list DrawCmd :=
  [Fill 10 10 10 255;
   DrawImage tileFood (int_mul (X (food g)) tileSize)
                      (int_mul (Y (food g)) tileSize)]
  ++ draw_snake 0 (snake g)
  ++ [DebugPrintAt (String.append "Score: "%string (fmt_d (score g))) 4 4;
      DebugPrintAt (String.append "Speed (frames/move): "%string
                                  (fmt_d (tickSpeed g))) 4 20;
      DebugPrintAt
        "Controls: Arrow keys or WASD. R = restart (on game over)"%string
        4 36]
  ++ (if gameOver g
      then [DebugPrintAt "GAME OVER! Press R to restart."%string
                         (screenW / 2 - 120) (screenH / 2)]
      else []).

(** [func (g *Game) Layout(outsideWidth, outsideHeight int) (int, int)] *)
Definition Layout (outsideWidth outsideHeight : Z) : Z * Z :=
  (screenW, screenH).

(** The tiles a list of calls puts on the screen: kind and top-left pixel. *)
Fixpoint tiles_of (cmds : list DrawCmd) : list (Tile * (Z * Z)) :=
  match cmds with
  | [] => []
  | DrawImage t tx ty :: rest => (t, (tx, ty)) :: tiles_of rest
  | _ :: rest => tiles_of rest
  end.

(** The top-left pixel at which the tile of a cell is drawn. *)
Definition pixel_of (p : Point) : Z * Z :=
  (int_mul (X p) tileSize, int_mul (Y p) tileSize).

(** The texts a list of calls prints. *)
Fixpoint texts_of (cmds : list DrawCmd) : list String.string :=
  match cmds with
  | [] => []
  | DebugPrintAt s _ _ :: rest => s :: texts_of rest
  | _ :: rest => texts_of rest
  end.

(** A snake that covers the whole board. *)
Definition full_board_scenario : Game :=
  mkGame all_cells (mkPoint 1 0) (mkPoint 1 0) (mkPoint 0 0)
         1197 0 2 false true.

(** * Properties *)

(** ** Wrap-around arithmetic *)
Module GoIntFacts.
Import GoInt.

Lemma modulus_eq : modulus = 2 * half.
Proof. reflexivity. Qed.

Lemma half_pos : 0 < half.
Proof. reflexivity. Qed.

Lemma half_big : 4096 < half.
Proof. reflexivity. Qed.

Lemma wrap_small z : in_range z -> wrap z = z.
Proof.
  unfold in_range, wrap, min_int, max_int. rewrite modulus_eq.
  pose proof half_pos. intros Hz. rewrite Z.mod_small; lia.
Qed.

(** Range side conditions on quantities bounded by the board. *)
Ltac int_range :=
  unfold in_range, min_int, max_int; pose proof half_big; lia.

Lemma wrap_in_range z : in_range (wrap z).
Proof.
  unfold in_range, wrap, min_int, max_int. rewrite modulus_eq.
  pose proof half_pos.
  pose proof (Z.mod_pos_bound (z + half) (2 * half)). lia.
Qed.

End GoIntFacts.

(** ** Cells and scans *)

Lemma Point_eqb_eq p q : Point_eqb p q = true <-> p = q.
Proof.
  unfold Point_eqb. rewrite andb_true_iff, !Z.eqb_eq.
  destruct p, q; simpl. split.
  - intros [-> ->]. reflexivity.
  - intros E. injection E. auto.
Qed.

Lemma Point_eqb_refl p : Point_eqb p p = true.
Proof. apply Point_eqb_eq. reflexivity. Qed.

Lemma Point_eqb_neq p q : Point_eqb p q = false <-> p <> q.
Proof.
  rewrite <- Point_eqb_eq. destruct (Point_eqb p q); split; congruence.
Qed.

Lemma occupies_In cells p : occupies cells p = true <-> In p cells.
Proof.
  induction cells as [|s rest IH]; simpl.
  - split; [discriminate | tauto].
  - destruct (Point_eqb s p) eqn:E.
    + apply Point_eqb_eq in E. tauto.
    + apply Point_eqb_neq in E. rewrite IH. split; [tauto|].
      intros [H|H]; [contradiction | exact H].
Qed.

Lemma occupies_not_In cells p : occupies cells p = false <-> ~ In p cells.
Proof.
  rewrite <- occupies_In. destruct (occupies cells p); split; congruence.
Qed.

Lemma last_In (h : Point) rest : In (last rest h) (h :: rest).
Proof.
  induction rest as [|c rest IH]; [left; reflexivity|].
  destruct rest as [|c' rest']; [right; left; reflexivity|].
  change (last (c :: c' :: rest') h) with (last (c' :: rest') h).
  destruct IH as [E|I]; [left; exact E | right; right; exact I].
Qed.

Lemma occupies_last h rest : occupies (h :: rest) (last rest h) = true.
Proof. apply occupies_In, last_In. Qed.

Lemma drawn_in_grid r k : in_grid (drawn r k).
Proof.
  unfold in_grid, drawn, gridW, gridH; simpl. split; apply Z.mod_pos_bound; lia.
Qed.

Lemma drawn_shift r k : drawn (after_rounds r 1) k = drawn r (S k).
Proof.
  unfold drawn, after_rounds; simpl.
  replace (cursor r + 2 + (k + (k + 0)))%nat
    with (cursor r + S (k + S (k + 0)))%nat by lia.
  reflexivity.
Qed.

Lemma after_rounds_shift r k :
  after_rounds (after_rounds r 1) k = after_rounds r (S k).
Proof. unfold after_rounds; simpl. f_equal. lia. Qed.

(** ** Lists: dropping the last cell, and the board as a list *)

Section Removelast.
Context {A : Type}.

Lemma removelast_In (x : A) l : In x (removelast l) -> In x l.
Proof.
  induction l as [|a l IH]; simpl; [tauto|].
  destruct l as [|b l]; [simpl; tauto|].
  intros [E|I]; [left; exact E | right; apply IH; exact I].
Qed.

Lemma removelast_cons_length (a : A) l :
  length (removelast (a :: l)) = length l.
Proof.
  revert a. induction l as [|b l IH]; intros a; [reflexivity|].
  change (S (length (removelast (b :: l))) = S (length l)).
  f_equal. apply IH.
Qed.

Lemma removelast_cons_cons (a b : A) l :
  removelast (a :: b :: l) = a :: removelast (b :: l).
Proof. reflexivity. Qed.

Lemma removelast_NoDup (l : list A) : NoDup l -> NoDup (removelast l).
Proof.
  induction 1 as [|a l Hin Hnd IH]; [constructor|].
  destruct l as [|b l]; [constructor|].
  rewrite removelast_cons_cons. constructor; [|exact IH].
  intros I. apply Hin, removelast_In, I.
Qed.

Lemma removelast_Forall (P : A -> Prop) l :
  Forall P l -> Forall P (removelast l).
Proof.
  rewrite !Forall_forall. intros H x I. apply H, removelast_In, I.
Qed.
End Removelast.

Lemma all_cells_length : length all_cells = 1200%nat.
Proof. reflexivity. Qed.

Lemma in_grid_all_cells_iff p : In p all_cells <-> in_grid p.
Proof.
  unfold all_cells, in_grid.
  assert (Hw : Z.of_nat (Z.to_nat gridW) = gridW) by reflexivity.
  assert (Hh : Z.of_nat (Z.to_nat gridH) = gridH) by reflexivity.
  revert Hw Hh. generalize (Z.to_nat gridW) (Z.to_nat gridH). intros w h Hw Hh.
  rewrite in_flat_map. split.
  - intros (x & Hx & I). rewrite in_map_iff in I.
    destruct I as (y & <- & Hy). rewrite in_seq in Hx, Hy. simpl. lia.
  - intros [Hx Hy]. exists (Z.to_nat (X p)). rewrite in_seq, in_map_iff.
    split; [lia|]. exists (Z.to_nat (Y p)). rewrite in_seq. split; [|lia].
    destruct p as [x y]; simpl in *. f_equal; lia.
Qed.

Lemma in_grid_all_cells p : in_grid p -> In p all_cells.
Proof. apply in_grid_all_cells_iff. Qed.

(** A duplicate-free snake on the board has at most 1200 cells. *)
Lemma snake_fits cells :
  Forall in_grid cells -> NoDup cells -> (length cells <= 1200)%nat.
Proof.
  intros Hg Hnd. rewrite <- all_cells_length.
  apply NoDup_incl_length; [exact Hnd|].
  intros p I. apply in_grid_all_cells. rewrite Forall_forall in Hg. auto.
Qed.

(** ** The food loop *)

(** One round of [placeFood], unfolded in terms of [drawn]. *)
Lemma placeFood_round fuel r g :
  placeFood (S fuel) r g =
  if occupies (snake g) (drawn r 0) then placeFood fuel (after_rounds r 1) g
  else Ok (with_food (drawn r 0) g, after_rounds r 1).
Proof.
  unfold drawn, after_rounds. simpl.
  rewrite !Nat.add_0_r.
  replace (cursor r + 1)%nat with (S (cursor r)) by lia.
  replace (cursor r + 2)%nat with (S (S (cursor r))) by lia.
  reflexivity.
Qed.

(** What a returning [placeFood] has done: it stopped in some round [k], on
    the first cell off the snake, and only [food] changed. *)
Lemma placeFood_Ok fuel r g g' r' :
  placeFood fuel r g = Ok (g', r') ->
  exists k, (k < fuel)%nat /\
    g' = with_food (drawn r k) g /\ r' = after_rounds r (S k) /\
    occupies (snake g) (drawn r k) = false /\
    forall j, (j < k)%nat -> occupies (snake g) (drawn r j) = true.
Proof.
  revert r. induction fuel as [|fuel IH]; intros r; [discriminate|].
  rewrite placeFood_round. destruct (occupies (snake g) (drawn r 0)) eqn:E.
  - intros H. destruct (IH _ H) as (k & Hk & Hg & Hr & Hfree & Hbusy).
    exists (S k). rewrite drawn_shift in Hg, Hfree.
    rewrite after_rounds_shift in Hr. repeat split; auto; try lia.
    intros [|j] Hj; [exact E|]. rewrite <- drawn_shift. apply Hbusy. lia.
  - intros H. injection H as <- <-. exists 0%nat. repeat split; auto; lia.
Qed.

Lemma placeFood_no_panic fuel r g : placeFood fuel r g <> Panic.
Proof.
  revert r. induction fuel as [|fuel IH]; intros r; [discriminate|].
  rewrite placeFood_round. destruct (occupies _ _); [apply IH | discriminate].
Qed.

(** The loop returns no later than the first round that draws a free cell. *)
Lemma placeFood_returns k r g fuel :
  occupies (snake g) (drawn r k) = false -> (k < fuel)%nat ->
  exists g' r', placeFood fuel r g = Ok (g', r').
Proof.
  revert r fuel. induction k as [|k IH]; intros r [|fuel] Hfree Hk; try lia;
    rewrite placeFood_round.
  - rewrite Hfree. eauto.
  - destruct (occupies (snake g) (drawn r 0)); [|eauto].
    apply IH; [|lia]. rewrite drawn_shift. exact Hfree.
Qed.

(** While every round so far drew a snake cell, the loop is still running. *)
Lemma placeFood_spins fuel r g :
  (forall j, (j < fuel)%nat -> occupies (snake g) (drawn r j) = true) ->
  placeFood fuel r g = Spin.
Proof.
  revert r. induction fuel as [|fuel IH]; intros r H; [reflexivity|].
  rewrite placeFood_round, (H 0%nat) by lia. apply IH.
  intros j Hj. rewrite drawn_shift. apply H. lia.
Qed.

(** ** The branches of the tick *)

Lemma tick_game_over fuel r g :
  gameOver g = true -> tick fuel r g = Ok (g, r).
Proof. unfold tick. intros ->. reflexivity. Qed.

Lemma tick_throttled fuel r g :
  running g -> ~ throttle_boundary g ->
  tick fuel r g = Ok (with_tickCount (GoInt.incr (tickCount g)) g, r).
Proof.
  unfold running, throttle_boundary, tick. intros -> Hb. simpl.
  destruct (GoInt.incr (tickCount g) <? tickSpeed g); [reflexivity|].
  exfalso. apply Hb. reflexivity.
Qed.

Lemma tick_empty fuel r g :
  running g -> throttle_boundary g -> snake g = [] ->
  tick fuel r g = Panic.
Proof.
  unfold running, throttle_boundary, tick. intros -> Hb Hs. simpl.
  rewrite Hb, Hs. reflexivity.
Qed.

Lemma tick_boundary fuel r g h t :
  running g -> throttle_boundary g -> snake g = h :: t ->
  tick fuel r g =
  let newHead := step_from h (nextDir g) in
  if out_of_bounds newHead then Ok (with_gameOver true (committed g), r)
  else if occupies (snake g) newHead then Ok (with_gameOver true (committed g), r)
  else if Point_eqb newHead (food g) then placeFood fuel r (fed newHead g)
  else Ok (with_snake (removelast (newHead :: snake g)) (committed g), r).
Proof.
  destruct g as [sn d nd fd sc tc ts go st].
  unfold running, throttle_boundary, tick, fed, committed. simpl.
  intros -> Hb ->. rewrite Hb. reflexivity.
Qed.

Lemma new_head_cons g h t :
  snake g = h :: t -> new_head g = Some (step_from h (nextDir g)).
Proof. unfold new_head. intros ->. reflexivity. Qed.

Lemma new_head_inv g p :
  new_head g = Some p ->
  exists h t, snake g = h :: t /\ p = step_from h (nextDir g).
Proof.
  unfold new_head. destruct (snake g) as [|h t]; [discriminate|].
  intros E. injection E as <-. eauto.
Qed.

Lemma out_of_bounds_false p : out_of_bounds p = false <-> in_grid p.
Proof.
  unfold out_of_bounds, in_grid. rewrite !orb_false_iff.
  rewrite !Z.ltb_ge, !Z.geb_leb, !Z.leb_gt. lia.
Qed.

Lemma out_of_bounds_true p : out_of_bounds p = true <-> ~ in_grid p.
Proof.
  rewrite <- out_of_bounds_false. destruct (out_of_bounds p); split; congruence.
Qed.

Lemma fed_fields p g :
  snake (fed p g) = p :: snake g /\
  dir (fed p g) = nextDir g /\
  nextDir (fed p g) = nextDir g /\
  food (fed p g) = food g /\
  score (fed p g) = GoInt.incr (score g) /\
  tickCount (fed p g) = 0 /\
  gameOver (fed p g) = gameOver g /\
  started (fed p g) = started g /\
  tickSpeed (fed p g) =
    if (GoInt.rem (GoInt.incr (score g)) speedUpEvery =? 0) && (tickSpeed g >? 2)
    then GoInt.sub (tickSpeed g) speedDelta else tickSpeed g.
Proof.
  unfold fed, committed. simpl.
  destruct ((GoInt.rem (GoInt.incr (score g)) speedUpEvery =? 0)
            && (tickSpeed g >? 2)); simpl; repeat split; reflexivity.
Qed.

(** ** The outcomes of a tick *)

Lemma tick_Ok_outcome fuel r g g' r' :
  tick fuel r g = Ok (g', r') -> tick_outcome g r g' r'.
Proof.
  intros H. destruct (gameOver g) eqn:Hgo.
  { rewrite tick_game_over in H by exact Hgo. injection H as <- <-.
    apply out_frozen, Hgo. }
  destruct (GoInt.incr (tickCount g) <? tickSpeed g) eqn:Hb.
  { assert (Hnb : ~ throttle_boundary g)
      by (unfold throttle_boundary; congruence).
    rewrite tick_throttled in H by assumption. injection H as <- <-.
    apply out_wait; assumption. }
  destruct (snake g) as [|h t] eqn:Hs.
  { rewrite tick_empty in H by assumption. discriminate. }
  pose proof (new_head_cons g h t Hs) as Hnh.
  rewrite (tick_boundary fuel r g h t Hgo Hb Hs) in H. cbv zeta in H.
  destruct (out_of_bounds _) eqn:Hw.
  { injection H as <- <-. apply out_of_bounds_true in Hw.
    eapply out_crash; eauto. }
  destruct (occupies _ _) eqn:Hself.
  { injection H as <- <-. apply occupies_In in Hself.
    eapply out_crash; eauto. }
  apply out_of_bounds_false in Hw. apply occupies_not_In in Hself.
  destruct (Point_eqb _ _) eqn:Hfood.
  - apply Point_eqb_eq in Hfood. rewrite Hfood in *.
    apply placeFood_Ok in H. destruct H as (k & _ & -> & -> & Hfree & _).
    destruct (fed_fields (food g) g) as (Fs & _). rewrite Fs in Hfree.
    apply occupies_not_In in Hfree. apply out_eat; assumption.
  - injection H as <- <-. apply Point_eqb_neq in Hfood.
    apply out_move; assumption.
Qed.

Lemma tick_no_panic fuel r g : snake g <> [] -> tick fuel r g <> Panic.
Proof.
  intros Hne. destruct (gameOver g) eqn:Hgo.
  { rewrite tick_game_over by exact Hgo. discriminate. }
  destruct (GoInt.incr (tickCount g) <? tickSpeed g) eqn:Hb.
  { rewrite tick_throttled;
      [discriminate | exact Hgo | unfold throttle_boundary; congruence]. }
  destruct (snake g) as [|h t] eqn:Hs; [congruence|].
  rewrite (tick_boundary fuel r g h t Hgo Hb Hs). cbv zeta.
  destruct (out_of_bounds _); [discriminate|].
  destruct (occupies _ _); [discriminate|].
  destruct (Point_eqb _ _); [apply placeFood_no_panic | discriminate].
Qed.

(** ** Directions *)

Lemma delta_not_self_reverse i : delta i <> reverse (delta i).
Proof. destruct i; discriminate. Qed.

(** A rejected intent leaves the state alone; an accepted one buffers a delta
    that is not the reverse of the moving direction. *)
Lemma set_direction_cases i g :
  set_direction i g = g \/
  (set_direction i g = with_nextDir (delta i) g /\ delta i <> reverse (dir g)).
Proof.
  destruct g as [sn [dx dy] nd fd sc tc ts go st].
  destruct i; unfold set_direction, reverse; simpl;
    match goal with |- context [negb (?a =? ?b)] =>
      destruct (Z.eqb_spec a b) as [E|E]; simpl end;
    try (left; reflexivity);
    right; (split; [reflexivity|]); intros H; injection H; lia.
Qed.

Lemma set_direction_rejects i g :
  delta i = reverse (dir g) -> set_direction i g = g.
Proof.
  destruct g as [sn [dx dy] nd fd sc tc ts go st].
  destruct i; unfold set_direction, reverse; simpl; intros H; injection H;
    intros; match goal with |- context [negb (?a =? ?b)] =>
      destruct (Z.eqb_spec a b) as [E|E]; simpl end;
    try reflexivity; lia.
Qed.

Lemma handle_input_fold k g :
  handle_input k g = fold_left (fun g i => set_direction i g) (intents_of k) g.
Proof.
  unfold handle_input, intents_of.
  destruct (KeyArrowUp k || KeyW k), (KeyArrowDown k || KeyS k),
    (KeyArrowLeft k || KeyA k), (KeyArrowRight k || KeyD k); reflexivity.
Qed.

Lemma set_direction_frame i g : exists d, set_direction i g = with_nextDir d g.
Proof.
  destruct (set_direction_cases i g) as [E | [E _]]; rewrite E; [|eauto].
  exists (nextDir g). destruct g; reflexivity.
Qed.

(** The input block writes [nextDir] and nothing else. *)
Lemma handle_input_frame k g : exists d, handle_input k g = with_nextDir d g.
Proof.
  rewrite handle_input_fold. generalize (intents_of k). intros l.
  assert (G : forall g0, exists d,
             fold_left (fun g i => set_direction i g) l (with_nextDir (nextDir g0) g0)
             = with_nextDir d g0).
  { induction l as [|i l IH]; intros g0; simpl; [eauto|].
    destruct (set_direction_frame i (with_nextDir (nextDir g0) g0)) as [d ->].
    destruct (IH (with_nextDir d g0)) as [d' E]. exists d'.
    simpl in E. exact E. }
  destruct (G g) as [d E]. exists d. rewrite <- E. destruct g; reflexivity.
Qed.

(** Intents never touch the moving direction, and whatever they buffer is not
    its reverse. *)
Lemma set_direction_keeps i g :
  nextDir g <> reverse (dir g) ->
  dir (set_direction i g) = dir g /\
  nextDir (set_direction i g) <> reverse (dir g).
Proof.
  intros H. destruct (set_direction_cases i g) as [-> | [-> Hrev]]; auto.
Qed.

Lemma intents_keep l g :
  nextDir g <> reverse (dir g) ->
  let g' := fold_left (fun g i => set_direction i g) l g in
  dir g' = dir g /\ nextDir g' <> reverse (dir g).
Proof.
  revert g. induction l as [|i l IH]; intros g H; simpl; [auto|].
  destruct (set_direction_keeps i g H) as [Hd Hn].
  rewrite <- Hd in Hn. destruct (IH _ Hn) as [Hd' Hn'].
  simpl in Hd', Hn'. rewrite Hd in *. auto.
Qed.

Lemma handle_inputs_fold ks g :
  fold_left (fun g k => handle_input k g) ks g =
  fold_left (fun g i => set_direction i g) (flat_map intents_of ks) g.
Proof.
  revert g. induction ks as [|k ks IH]; intros g; simpl; [reflexivity|].
  rewrite fold_left_app, <- handle_input_fold. apply IH.
Qed.

(** ** What reset does *)

(** The state a returning [reset] leaves, in full: only the food cell depends
    on the generator. *)
Lemma reset_Ok fuel r g g' r' :
  reset fuel r g = Ok (g', r') ->
  exists k, (k < fuel)%nat /\
    g' = mkGame initial_snake (mkPoint 1 0) (mkPoint 1 0) (drawn r k)
                0 0 baseTickSpeed false true /\
    r' = after_rounds r (S k) /\
    occupies initial_snake (drawn r k) = false /\
    forall j, (j < k)%nat -> occupies initial_snake (drawn r j) = true.
Proof.
  unfold reset.
  destruct (placeFood fuel r _) as [[g1 r1]| |] eqn:E; try discriminate.
  intros H. injection H as <- <-.
  apply placeFood_Ok in E. destruct E as (k & Hk & -> & -> & Hfree & Hbusy).
  exists k. repeat split; auto.
Qed.

(** [reset] returns no later than the first round that draws a free cell. *)
Lemma reset_returns k fuel r g :
  occupies initial_snake (drawn r k) = false -> (k < fuel)%nat ->
  exists g' r', reset fuel r g = Ok (g', r').
Proof.
  intros Hfree Hk. unfold reset.
  destruct (placeFood_returns k r
    (with_nextDir (mkPoint 1 0) (with_dir (mkPoint 1 0)
       (with_snake initial_snake g))) fuel Hfree Hk) as (g1 & r1 & E).
  change (placeFood fuel r _) with (placeFood fuel r
    (with_nextDir (mkPoint 1 0) (with_dir (mkPoint 1 0)
       (with_snake initial_snake g)))).
  rewrite E. eauto.
Qed.

(** ** The invariant is kept *)

Lemma Inv_reset fuel r g g' r' : reset fuel r g = Ok (g', r') -> Inv g'.
Proof.
  intros H. apply reset_Ok in H.
  destruct H as (k & _ & -> & _ & Hfree & _).
  apply occupies_not_In in Hfree.
  constructor; simpl.
  - discriminate.
  - repeat constructor; unfold gridW, gridH; simpl; lia.
  - repeat constructor; simpl; intuition discriminate.
  - apply drawn_in_grid.
  - exact Hfree.
  - reflexivity.
  - unfold minTickSpeed, baseTickSpeed. lia.
  - unfold baseTickSpeed. lia.
  - exists Right. reflexivity.
  - exists Right. reflexivity.
  - discriminate.
Qed.

Lemma Inv_set_direction i g : Inv g -> Inv (set_direction i g).
Proof.
  intros I. destruct (set_direction_cases i g) as [-> | [-> Hrev]]; [exact I|].
  destruct I. constructor; simpl; auto. exists i. reflexivity.
Qed.

Lemma Inv_handle_input k g : Inv g -> Inv (handle_input k g).
Proof.
  rewrite handle_input_fold. generalize (intents_of k). intros l. revert g.
  induction l as [|i l IH]; intros g I; simpl; [exact I|].
  apply IH, Inv_set_direction, I.
Qed.

(** A step from a board cell along a unit delta does not wrap. *)
Lemma step_from_delta h i :
  in_grid h ->
  step_from h (delta i) = mkPoint (X h + X (delta i)) (Y h + Y (delta i)).
Proof.
  unfold in_grid, gridW, gridH, step_from, GoInt.add. intros [Hx Hy].
  rewrite !GoIntFacts.wrap_small; [reflexivity| |];
    destruct i; simpl; GoIntFacts.int_range.
Qed.

(** In a consistent state the new head is the head plus the buffered
    direction, with no wrap-around: one of the four neighbours. *)
Lemma new_head_no_wrap g h t :
  Inv g -> snake g = h :: t ->
  new_head g = Some (mkPoint (X h + X (nextDir g)) (Y h + Y (nextDir g))).
Proof.
  intros I Hs. rewrite (new_head_cons g h t Hs).
  destruct (inv_nextDir g I) as [i ->]. rewrite step_from_delta; [reflexivity|].
  pose proof (inv_cells g I) as F. rewrite Hs in F.
  inversion F; assumption.
Qed.

(** In a consistent state the counters are far from the ends of [int]. *)
Lemma Inv_incr_score g : Inv g -> GoInt.incr (score g) = score g + 1.
Proof.
  intros I. pose proof (snake_fits _ (inv_cells g I) (inv_nodup g I)).
  pose proof (inv_score g I). unfold GoInt.incr, GoInt.add.
  apply GoIntFacts.wrap_small. GoIntFacts.int_range.
Qed.

Lemma Inv_incr_tickCount g :
  Inv g -> GoInt.incr (tickCount g) = tickCount g + 1.
Proof.
  intros I. pose proof (inv_count g I). pose proof (inv_speed g I).
  unfold baseTickSpeed in *. unfold GoInt.incr, GoInt.add.
  apply GoIntFacts.wrap_small. GoIntFacts.int_range.
Qed.

Lemma Inv_sub_tickSpeed g :
  Inv g -> GoInt.sub (tickSpeed g) speedDelta = tickSpeed g - 1.
Proof.
  intros I. pose proof (inv_speed g I).
  unfold baseTickSpeed, minTickSpeed, speedDelta in *. unfold GoInt.sub.
  apply GoIntFacts.wrap_small. GoIntFacts.int_range.
Qed.

Lemma Inv_crashed g : Inv g -> Inv (with_gameOver true (committed g)).
Proof.
  intros I. pose proof (inv_speed g I). unfold minTickSpeed in *.
  destruct (inv_nextDir g I) as [i Hi].
  destruct I. constructor; simpl; auto; try lia.
  rewrite Hi. apply delta_not_self_reverse.
Qed.

Lemma Inv_moved g p :
  Inv g -> in_grid p -> ~ In p (snake g) -> p <> food g ->
  Inv (with_snake (removelast (p :: snake g)) (committed g)).
Proof.
  intros I Hg Hfree Hfood. pose proof (inv_speed g I). unfold minTickSpeed in *.
  destruct (inv_nextDir g I) as [i Hi].
  assert (Hnd : NoDup (removelast (p :: snake g))).
  { apply removelast_NoDup. constructor; [exact Hfree | apply I]. }
  assert (Hall : Forall in_grid (removelast (p :: snake g))).
  { apply removelast_Forall. constructor; [exact Hg | apply I]. }
  assert (Hfd : ~ In (food g) (removelast (p :: snake g))).
  { intros J. apply removelast_In in J. destruct J as [E|J]; [congruence|].
    exact (inv_food_free g I J). }
  assert (Hne : removelast (p :: snake g) <> []).
  { pose proof (inv_nonempty g I). destruct (snake g); [congruence|].
    rewrite removelast_cons_cons. discriminate. }
  pose proof (removelast_cons_length p (snake g)) as Hlen.
  revert Hnd Hall Hfd Hne Hlen. generalize (removelast (p :: snake g)).
  intros cells Hnd Hall Hfd Hne Hlen.
  destruct I. constructor; simpl; auto; try lia.
  rewrite Hi. apply delta_not_self_reverse.
Qed.

Lemma Inv_fed g p q :
  Inv g -> in_grid p -> ~ In p (snake g) ->
  in_grid q -> ~ In q (p :: snake g) ->
  Inv (with_food q (fed p g)).
Proof.
  intros I Hg Hfree Hq Hqfree.
  pose proof (inv_speed g I) as Hsp. unfold minTickSpeed, baseTickSpeed in *.
  destruct (inv_nextDir g I) as [i Hi].
  pose proof (Inv_incr_score g I) as Hsc.
  pose proof (Inv_sub_tickSpeed g I) as Hsub.
  destruct (fed_fields p g) as (Fs & Fd & Fn & Ff & Fsc & Ftc & Fgo & Fst & Fts).
  assert (Hts : 2 <= tickSpeed (fed p g) <= 8).
  { rewrite Fts. destruct (GoInt.rem _ _ =? 0); simpl; [|lia].
    destruct (Z.gtb_spec (tickSpeed g) 2); lia. }
  destruct I. constructor; simpl snake; simpl food; simpl score;
    simpl tickSpeed; simpl tickCount; simpl dir; simpl nextDir;
    rewrite ?Fs, ?Fd, ?Fn, ?Fsc, ?Ftc; auto.
  - discriminate.
  - constructor; assumption.
  - rewrite Hsc. simpl length. lia.
  - lia.
  - rewrite Hi. apply delta_not_self_reverse.
Qed.

(** The tick keeps the invariant. *)
Lemma Inv_tick fuel r g g' r' :
  Inv g -> tick fuel r g = Ok (g', r') -> Inv g'.
Proof.
  intros I H. apply tick_Ok_outcome in H.
  destruct H as [Hgo | Hrun Hnb | p Hrun Hb Hnh Hc
                | k Hrun Hb Hnh Hg Hfree Hk | p Hrun Hb Hnh Hg Hfree Hne].
  - exact I.
  - assert (Hlt : GoInt.incr (tickCount g) < tickSpeed g).
    { apply Z.ltb_lt. unfold throttle_boundary in Hnb.
      destruct (GoInt.incr (tickCount g) <? tickSpeed g); congruence. }
    rewrite Inv_incr_tickCount in * by exact I. pose proof (inv_count g I).
    destruct I. constructor; simpl; auto. lia.
  - apply Inv_crashed, I.
  - apply Inv_fed; auto using drawn_in_grid.
  - apply Inv_moved; auto.
Qed.

(** Every reachable state satisfies the data-model invariant. *)
Lemma reachable_Inv g r : reachable g r -> Inv g.
Proof.
  induction 1 as [fuel r g r' H | fuel g r g' r' _ _ _ H
                 | k g r _ IH | fuel g r g' r' _ IH H].
  - exact (Inv_reset _ _ _ _ _ H).
  - exact (Inv_reset _ _ _ _ _ H).
  - apply Inv_handle_input, IH.
  - exact (Inv_tick _ _ _ _ _ IH H).
Qed.

(** [Update] as a whole stays within the reachable states. *)
Lemma reachable_Update fuel k g r g' r' :
  reachable g r -> Update fuel k r g = Ok (g', r') -> reachable g' r'.
Proof.
  intros R. unfold Update. destruct (KeyR k && gameOver g) eqn:E.
  - apply andb_true_iff in E. destruct E as [_ Hgo]. intros H.
    exact (reach_restart _ _ _ _ _ R Hgo H).
  - intros H. exact (reach_tick _ _ _ _ _ (reach_input k _ _ R) H).
Qed.

Lemma reachable_ticks n fuel g r g' r' :
  reachable g r -> ticks n fuel r g = Ok (g', r') -> reachable g' r'.
Proof.
  revert g r. induction n as [|n IH]; intros g r R H; simpl in H.
  - injection H as <- <-. exact R.
  - destruct (tick fuel r g) as [[g1 r1]| |] eqn:E; try discriminate.
    exact (IH g1 r1 (reach_tick _ _ _ _ _ R E) H).
Qed.

(** In a consistent state, a movement onto the food cell is the food branch:
    the tick is [placeFood] run on the grown snake. *)
Lemma tick_eats fuel r g :
  Inv g -> running g -> throttle_boundary g -> new_head g = Some (food g) ->
  tick fuel r g = placeFood fuel r (fed (food g) g).
Proof.
  intros I Hrun Hb Hnh. destruct (new_head_inv g _ Hnh) as (h & t & Hs & Hp).
  rewrite (tick_boundary fuel r g h t Hrun Hb Hs). cbv zeta. rewrite <- Hp.
  rewrite (proj2 (out_of_bounds_false _) (inv_food_grid g I)).
  rewrite (proj2 (occupies_not_In _ _) (inv_food_free g I)).
  rewrite Point_eqb_refl. reflexivity.
Qed.

(** ** Sample runs *)

Lemma eat_scenario_reachable : reachable eat_scenario (after_rounds demo_rng 1).
Proof.
  assert (R0 : reachable (with_tickCount 0 eat_scenario) (after_rounds demo_rng 1)).
  { apply (reach_NewGame 1 demo_rng). vm_compute. reflexivity. }
  apply (reachable_ticks 7 0 _ _ _ _ R0). vm_compute. reflexivity.
Qed.

Lemma speedup_scenario_reachable :
  reachable speedup_scenario (after_rounds demo_rng 5).
Proof.
  apply (reachable_ticks 32 1 _ _ _ _ eat_scenario_reachable).
  vm_compute. reflexivity.
Qed.

(** ** Collisions *)

(** C4. On a movement tick of a running game whose new head cell (head plus
    the committed direction) is off the 40 x 30 board, the tick returns with
    the game-over flag set and with snake, food, score and tick speed as they
    were.  In particular, with the head at (0,15) and direction (-1,0) the
    new head is (-1,15), the flag is set and the snake is unchanged. *)
Theorem wall_collision_ends_game :
  (forall g r fuel p,
      running g -> throttle_boundary g ->
      new_head g = Some p -> ~ in_grid p ->
      exists g', tick fuel r g = Ok (g', r) /\
        gameOver g' = true /\ snake g' = snake g /\ food g' = food g /\
        score g' = score g /\ tickSpeed g' = tickSpeed g) /\
  (forall g r fuel t,
      running g -> throttle_boundary g ->
      snake g = mkPoint 0 15 :: t -> nextDir g = mkPoint (-1) 0 ->
      new_head g = Some (mkPoint (-1) 15) /\
      exists g', tick fuel r g = Ok (g', r) /\
        gameOver g' = true /\ snake g' = snake g).
Proof.
  assert (General : forall g r fuel p,
      running g -> throttle_boundary g ->
      new_head g = Some p -> ~ in_grid p ->
      exists g', tick fuel r g = Ok (g', r) /\
        gameOver g' = true /\ snake g' = snake g /\ food g' = food g /\
        score g' = score g /\ tickSpeed g' = tickSpeed g).
  { intros g r fuel p Hrun Hb Hnh Hout.
    destruct (new_head_inv g p Hnh) as (h & t & Hs & ->).
    apply out_of_bounds_true in Hout.
    exists (with_gameOver true (committed g)).
    rewrite (tick_boundary fuel r g h t Hrun Hb Hs). cbv zeta. rewrite Hout.
    repeat split; reflexivity. }
  split; [exact General|].
  intros g r fuel t Hrun Hb Hs Hd.
  assert (Hnh : new_head g = Some (mkPoint (-1) 15)).
  { rewrite (new_head_cons g _ _ Hs), Hd. reflexivity. }
  split; [exact Hnh|].
  destruct (General g r fuel _ Hrun Hb Hnh) as (g' & Ht & Hgo & Hsn & _).
  - unfold in_grid. simpl. lia.
  - exists g'. auto.
Qed.

Lemma wall_collision_ends_game_witness :
  running wall_scenario /\ throttle_boundary wall_scenario /\
  new_head wall_scenario = Some (mkPoint (-1) 15) /\
  ~ in_grid (mkPoint (-1) 15) /\
  exists g', tick 0 demo_rng wall_scenario = Ok (g', demo_rng) /\
    gameOver g' = true /\ snake g' = snake wall_scenario /\
    food g' = food wall_scenario /\ score g' = score wall_scenario /\
    tickSpeed g' = tickSpeed wall_scenario.
Proof.
  assert (Hrun : running wall_scenario) by reflexivity.
  assert (Hb : throttle_boundary wall_scenario) by (vm_compute; reflexivity).
  assert (Hnh : new_head wall_scenario = Some (mkPoint (-1) 15))
    by (vm_compute; reflexivity).
  assert (Hout : ~ in_grid (mkPoint (-1) 15))
    by (unfold in_grid; simpl; lia).
  refine (conj Hrun (conj Hb (conj Hnh (conj Hout _)))).
  exact (proj1 wall_collision_ends_game wall_scenario demo_rng 0%nat _
           Hrun Hb Hnh Hout).
Defined.

(** C5. On a movement tick of a running game whose new head cell is on the
    board and equals some cell of the snake, the tick returns with the
    game-over flag set and with snake, food, score and tick speed as they
    were: the snake is not extended. *)
Theorem self_collision_ends_game g r fuel p :
  running g -> throttle_boundary g ->
  new_head g = Some p -> in_grid p -> In p (snake g) ->
  exists g', tick fuel r g = Ok (g', r) /\
    gameOver g' = true /\ snake g' = snake g /\ food g' = food g /\
    score g' = score g /\ tickSpeed g' = tickSpeed g.
Proof.
  intros Hrun Hb Hnh Hin Hself.
  destruct (new_head_inv g p Hnh) as (h & t & Hs & ->).
  apply out_of_bounds_false in Hin. apply occupies_In in Hself.
  exists (with_gameOver true (committed g)).
  rewrite (tick_boundary fuel r g h t Hrun Hb Hs). cbv zeta.
  rewrite Hin, Hself. repeat split; reflexivity.
Qed.

Lemma self_collision_ends_game_witness :
  running coil_scenario /\ throttle_boundary coil_scenario /\
  new_head coil_scenario = Some (mkPoint 6 5) /\
  in_grid (mkPoint 6 5) /\ In (mkPoint 6 5) (snake coil_scenario) /\
  exists g', tick 0 demo_rng coil_scenario = Ok (g', demo_rng) /\
    gameOver g' = true /\ snake g' = snake coil_scenario /\
    food g' = food coil_scenario /\ score g' = score coil_scenario /\
    tickSpeed g' = tickSpeed coil_scenario.
Proof.
  assert (Hrun : running coil_scenario) by reflexivity.
  assert (Hb : throttle_boundary coil_scenario) by (vm_compute; reflexivity).
  assert (Hnh : new_head coil_scenario = Some (mkPoint 6 5))
    by (vm_compute; reflexivity).
  assert (Hg : in_grid (mkPoint 6 5))
    by (unfold in_grid, gridW, gridH; simpl; lia).
  assert (Hin : In (mkPoint 6 5) (snake coil_scenario))
    by (simpl; auto).
  refine (conj Hrun (conj Hb (conj Hnh (conj Hg (conj Hin _))))).
  exact (self_collision_ends_game coil_scenario demo_rng 0%nat _
           Hrun Hb Hnh Hg Hin).
Defined.

(** C10. On a movement tick of a running game whose new head cell is the
    snake's current tail cell (the tail cell not being the food cell), the
    tick sets the game-over flag: the scan
    runs over every current cell, the tail included, before any cell is
    dropped.  The snake is left as it was. *)
Theorem tail_cell_collision g r fuel p :
  running g -> throttle_boundary g ->
  new_head g = Some p -> tail_of g = Some p -> p <> food g ->
  exists g', tick fuel r g = Ok (g', r) /\
    gameOver g' = true /\ snake g' = snake g.
Proof.
  intros Hrun Hb Hnh Htail _.
  destruct (new_head_inv g p Hnh) as (h & t & Hs & Hp).
  unfold tail_of in Htail. rewrite Hs in Htail. injection Htail as Hlast.
  assert (Hocc : occupies (snake g) (step_from h (nextDir g)) = true).
  { rewrite Hs, <- Hp, <- Hlast. apply occupies_last. }
  exists (with_gameOver true (committed g)).
  rewrite (tick_boundary fuel r g h t Hrun Hb Hs). cbv zeta. rewrite Hocc.
  destruct (out_of_bounds _); repeat split; reflexivity.
Qed.

Lemma tail_cell_collision_witness :
  running square_scenario /\ throttle_boundary square_scenario /\
  new_head square_scenario = Some (mkPoint 2 1) /\
  tail_of square_scenario = Some (mkPoint 2 1) /\
  mkPoint 2 1 <> food square_scenario /\
  exists g', tick 0 demo_rng square_scenario = Ok (g', demo_rng) /\
    gameOver g' = true /\ snake g' = snake square_scenario.
Proof.
  assert (Hrun : running square_scenario) by reflexivity.
  assert (Hb : throttle_boundary square_scenario) by (vm_compute; reflexivity).
  assert (Hnh : new_head square_scenario = Some (mkPoint 2 1))
    by (vm_compute; reflexivity).
  assert (Ht : tail_of square_scenario = Some (mkPoint 2 1)) by reflexivity.
  assert (Hf : mkPoint 2 1 <> food square_scenario) by (simpl; discriminate).
  refine (conj Hrun (conj Hb (conj Hnh (conj Ht (conj Hf _))))).
  exact (tail_cell_collision square_scenario demo_rng 0%nat _
           Hrun Hb Hnh Ht Hf).
Defined.

(** ** The frozen game *)

(** C3. Once the game-over flag is set, any number of ticks in a row returns
    the very same state -- snake, directions, food, score, frame counter and
    tick speed -- and draws nothing from the generator. *)
Theorem game_over_freezes_ticks g r :
  gameOver g = true ->
  forall n fuel, ticks n fuel r g = Ok (g, r).
Proof.
  intros Hgo n fuel. induction n as [|n IH]; [reflexivity|].
  simpl. rewrite tick_game_over by exact Hgo. exact IH.
Qed.

Lemma game_over_freezes_ticks_witness :
  gameOver over_scenario = true /\
  ticks 3 1 demo_rng over_scenario = Ok (over_scenario, demo_rng).
Proof.
  split; [reflexivity|].
  apply (game_over_freezes_ticks over_scenario demo_rng); reflexivity.
Defined.

(** With the game over and [R] up, a frame runs the input block and then the
    frozen tick: a direction key can still rewrite the buffered [nextDir],
    and nothing else moves. *)
Lemma Update_game_over fuel k r g :
  gameOver g = true -> KeyR k = false ->
  Update fuel k r g = Ok (handle_input k g, r) /\
  exists d, handle_input k g = with_nextDir d g.
Proof.
  intros Hgo Hr. destruct (handle_input_frame k g) as [d E].
  split; [|eauto]. unfold Update. rewrite Hr. simpl.
  apply tick_game_over. rewrite E. exact Hgo.
Qed.

(** With the game over and no key down, a whole frame changes nothing. *)
Lemma Update_game_over_idle fuel r g :
  gameOver g = true -> Update fuel noKeys r g = Ok (g, r).
Proof. intros Hgo. unfold Update. simpl. apply tick_game_over, Hgo. Qed.

(** With the game over and [R] down, a frame is [reset]. *)
Lemma Update_restart fuel k r g :
  gameOver g = true -> KeyR k = true -> Update fuel k r g = reset fuel r g.
Proof. intros Hgo Hr. unfold Update. rewrite Hr, Hgo. reflexivity. Qed.

(** ** Direction buffering *)

(** C2. An intent that is the exact reverse of the moving direction [dir]
    leaves the state, and so [nextDir], unchanged, whatever is buffered;
    hence in every reachable state [nextDir] is not the reverse of [dir], and
    no sequence of intents (or of key snapshots run through the input block)
    applied while [dir] stands can buffer the reverse of [dir].  In
    particular, with [dir = (1,0)] the intent Left leaves [nextDir] as it
    was, so a buffered (1,0) stays (1,0). *)
Theorem reversal_is_rejected :
  (forall g i, delta i = reverse (dir g) ->
      set_direction i g = g /\ nextDir (set_direction i g) = nextDir g) /\
  (forall g r, reachable g r -> nextDir g <> reverse (dir g)) /\
  (forall g l, nextDir g <> reverse (dir g) ->
      let g' := fold_left (fun g i => set_direction i g) l g in
      dir g' = dir g /\ nextDir g' <> reverse (dir g)) /\
  (forall g ks, nextDir g <> reverse (dir g) ->
      let g' := fold_left (fun g k => handle_input k g) ks g in
      dir g' = dir g /\ nextDir g' <> reverse (dir g)) /\
  (forall g, dir g = mkPoint 1 0 ->
      nextDir (set_direction Left g) = nextDir g /\
      (nextDir g = mkPoint 1 0 ->
       nextDir (set_direction Left g) = mkPoint 1 0)).
Proof.
  split; [|split; [|split; [|split]]].
  - intros g i H. rewrite (set_direction_rejects i g H). auto.
  - intros g r R. exact (inv_no_reverse g (reachable_Inv g r R)).
  - intros g l H. exact (intents_keep l g H).
  - intros g ks H. rewrite handle_inputs_fold. exact (intents_keep _ g H).
  - intros g Hd.
    assert (E : set_direction Left g = g).
    { apply set_direction_rejects. rewrite Hd. reflexivity. }
    rewrite E. auto.
Qed.

Lemma reversal_is_rejected_witness :
  (delta Left = reverse (dir eat_scenario) /\
   set_direction Left eat_scenario = eat_scenario) /\
  (reachable eat_scenario (after_rounds demo_rng 1) /\
   nextDir eat_scenario <> reverse (dir eat_scenario)) /\
  (let g' := fold_left (fun g i => set_direction i g) [Up; Left] eat_scenario in
   dir g' = mkPoint 1 0 /\ nextDir g' = mkPoint 0 (-1)
   /\ nextDir g' <> reverse (dir eat_scenario)) /\
  (dir eat_scenario = mkPoint 1 0 /\
   nextDir (set_direction Left eat_scenario) = mkPoint 1 0).
Proof.
  destruct reversal_is_rejected as (Hrej & Hreach & Hseq & _ & Hleft).
  assert (Hrev : delta Left = reverse (dir eat_scenario)) by reflexivity.
  assert (Hd : dir eat_scenario = mkPoint 1 0) by reflexivity.
  assert (Hn : nextDir eat_scenario <> reverse (dir eat_scenario))
    by (vm_compute; discriminate).
  split; [|split; [|split]].
  - split; [exact Hrev | exact (proj1 (Hrej eat_scenario Left Hrev))].
  - split; [exact eat_scenario_reachable|].
    exact (Hreach _ _ eat_scenario_reachable).
  - split; [reflexivity|]. split; [reflexivity|].
    exact (proj2 (Hseq eat_scenario [Up; Left] Hn)).
  - split; [exact Hd|].
    exact (proj2 (Hleft eat_scenario Hd) eq_refl).
Defined.

(** ** Growth and score *)

(** C1. From a reachable running state, on a movement tick whose new head
    cell is the food cell: the tick is the food loop run on a state whose
    score is one higher and whose snake is the old one with the new head in
    front; so whenever the tick returns, the score has grown by exactly 1,
    the new head is prepended, no cell is removed and the length has grown by
    exactly 1; and it does return as soon as the generator draws a cell off
    the grown snake.  In particular, from snake [(20,15),(19,15),(18,15)],
    direction (1,0), score 0 and food at (21,15), the returned state has head
    (21,15), score 1 and length 4. *)
Theorem eating_grows_snake_and_score :
  (forall g r,
      reachable g r -> running g -> throttle_boundary g ->
      new_head g = Some (food g) ->
      (forall fuel, tick fuel r g = placeFood fuel r (fed (food g) g)) /\
      score (fed (food g) g) = score g + 1 /\
      snake (fed (food g) g) = food g :: snake g /\
      (forall fuel g' r', tick fuel r g = Ok (g', r') ->
         score g' = score g + 1 /\
         snake g' = food g :: snake g /\
         length (snake g') = S (length (snake g))) /\
      (forall k fuel,
         ~ In (drawn r k) (food g :: snake g) -> (k < fuel)%nat ->
         exists g' r', tick fuel r g = Ok (g', r'))) /\
  (forall g r fuel g' r',
      running g -> throttle_boundary g ->
      snake g = [mkPoint 20 15; mkPoint 19 15; mkPoint 18 15] ->
      dir g = mkPoint 1 0 -> nextDir g = mkPoint 1 0 ->
      food g = mkPoint 21 15 -> score g = 0 ->
      tick fuel r g = Ok (g', r') ->
      head_of g' = Some (mkPoint 21 15) /\ score g' = 1 /\
      length (snake g') = 4%nat /\
      snake g' = [mkPoint 21 15; mkPoint 20 15; mkPoint 19 15; mkPoint 18 15]).
Proof.
  split.
  - intros g r R Hrun Hb Hnh. pose proof (reachable_Inv g r R) as I.
    destruct (fed_fields (food g) g) as (Fs & _ & _ & _ & Fsc & _).
    rewrite (Inv_incr_score g I) in Fsc.
    repeat split; auto.
    + intros fuel. apply tick_eats; assumption.
    + rewrite tick_eats in H by assumption. apply placeFood_Ok in H.
      destruct H as (k & _ & -> & _). exact Fsc.
    + rewrite tick_eats in H by assumption. apply placeFood_Ok in H.
      destruct H as (k & _ & -> & _). exact Fs.
    + rewrite tick_eats in H by assumption. apply placeFood_Ok in H.
      destruct H as (k & _ & -> & _). simpl snake. rewrite Fs. reflexivity.
    + intros k fuel Hfree Hk. rewrite tick_eats by assumption.
      apply (placeFood_returns k); [|exact Hk].
      rewrite Fs. apply occupies_not_In, Hfree.
  - intros g r fuel g' r' Hrun Hb Hs Hd Hn Hf Hsc H.
    rewrite (tick_boundary fuel r g _ _ Hrun Hb Hs) in H. cbv zeta in H.
    rewrite Hn, Hs, Hf in H.
    change (placeFood fuel r (fed (mkPoint 21 15) g) = Ok (g', r')) in H.
    apply placeFood_Ok in H. destruct H as (k & _ & -> & _).
    destruct (fed_fields (mkPoint 21 15) g) as (Fs & _ & _ & _ & Fsc & _).
    unfold head_of. simpl snake. simpl score. rewrite Fs, Fsc, Hs, Hsc.
    repeat split; reflexivity.
Qed.

Lemma eating_grows_snake_and_score_witness :
  reachable eat_scenario (after_rounds demo_rng 1) /\
  running eat_scenario /\ throttle_boundary eat_scenario /\
  new_head eat_scenario = Some (food eat_scenario) /\
  exists g' r',
    tick 1 (after_rounds demo_rng 1) eat_scenario = Ok (g', r') /\
    score g' = 1 /\
    snake g' = [mkPoint 21 15; mkPoint 20 15; mkPoint 19 15; mkPoint 18 15] /\
    length (snake g') = 4%nat.
Proof.
  assert (Hrun : running eat_scenario) by reflexivity.
  assert (Hb : throttle_boundary eat_scenario) by (vm_compute; reflexivity).
  assert (Hnh : new_head eat_scenario = Some (food eat_scenario))
    by (vm_compute; reflexivity).
  repeat split; try assumption; try exact eat_scenario_reachable.
  destruct (proj1 eating_grows_snake_and_score eat_scenario
              (after_rounds demo_rng 1) eat_scenario_reachable Hrun Hb Hnh)
    as (_ & _ & _ & Hok & Hret).
  destruct (Hret 0%nat 1%nat) as (g' & r' & E).
  - vm_compute. intuition discriminate.
  - lia.
  - exists g', r'. destruct (Hok 1%nat g' r' E) as (Hsc & Hsn & Hlen).
    repeat split; assumption.
Defined.

(** C8. A tick from a reachable state never panics, and whenever it returns
    the snake is at least as long as before and at most one cell longer. *)
Theorem tick_length_step g r fuel :
  reachable g r ->
  tick fuel r g <> Panic /\
  forall g' r', tick fuel r g = Ok (g', r') ->
    (length (snake g) <= length (snake g') <= length (snake g) + 1)%nat.
Proof.
  intros R. pose proof (reachable_Inv g r R) as I. split.
  - apply tick_no_panic, I.
  - intros g' r' H. apply tick_Ok_outcome in H.
    destruct H as [Hgo | Hrun Hnb | p Hrun Hb Hnh Hc
                  | k Hrun Hb Hnh Hg Hfree Hk | p Hrun Hb Hnh Hg Hfree Hne].
    + lia.
    + simpl. lia.
    + simpl. lia.
    + simpl snake. destruct (fed_fields (food g) g) as (-> & _). simpl. lia.
    + change (snake (with_snake (removelast (p :: snake g)) (committed g)))
        with (removelast (p :: snake g)).
      rewrite removelast_cons_length. lia.
Qed.

Lemma tick_length_step_witness :
  reachable eat_scenario (after_rounds demo_rng 1) /\
  exists g' r',
    tick 1 (after_rounds demo_rng 1) eat_scenario = Ok (g', r') /\
    (3 <= length (snake g') <= 4)%nat.
Proof.
  split; [exact eat_scenario_reachable|].
  destruct (tick 1 (after_rounds demo_rng 1) eat_scenario)
    as [[g' r']| |] eqn:E; try (vm_compute in E; discriminate).
  exists g', r'. split; [reflexivity|].
  exact (proj2 (tick_length_step eat_scenario (after_rounds demo_rng 1) 1%nat
                  eat_scenario_reachable) g' r' E).
Defined.

(** ** Speed *)

(** One tick from a consistent state: the speed either stays, or drops by
    [speedDelta] exactly when food is eaten, the new score is a multiple of
    [speedUpEvery] and the speed was above the floor. *)
Lemma tick_speed_step fuel r g g' r' :
  Inv g -> tick fuel r g = Ok (g', r') ->
  minTickSpeed <= tickSpeed g' <= tickSpeed g /\
  ((tickSpeed g' = tickSpeed g - speedDelta /\
    running g /\ throttle_boundary g /\ new_head g = Some (food g) /\
    score g' = score g + 1 /\ GoInt.rem (score g') speedUpEvery = 0 /\
    tickSpeed g > minTickSpeed)
   \/
   (tickSpeed g' = tickSpeed g /\
    ~ (running g /\ throttle_boundary g /\ new_head g = Some (food g) /\
       GoInt.rem (score g + 1) speedUpEvery = 0 /\
       tickSpeed g > minTickSpeed))).
Proof.
  intros I H. pose proof (inv_speed g I) as Hsp.
  pose proof (inv_food_grid g I) as Hfg. pose proof (inv_food_free g I) as Hff.
  unfold minTickSpeed, baseTickSpeed, speedDelta in *.
  apply tick_Ok_outcome in H.
  destruct H as [Hgo | Hrun Hnb | p Hrun Hb Hnh Hc
                | k Hrun Hb Hnh Hg Hfree Hk | p Hrun Hb Hnh Hg Hfree Hne].
  - split; [lia|]. right. split; [reflexivity|].
    unfold running. intros (Hrun & _). congruence.
  - simpl. split; [lia|]. right. split; [reflexivity|]. tauto.
  - simpl. split; [lia|]. right. split; [reflexivity|].
    intros (_ & _ & Hnh' & _). rewrite Hnh in Hnh'. injection Hnh' as ->.
    tauto.
  - destruct (fed_fields (food g) g) as (_ & _ & _ & _ & Fsc & _ & _ & _ & Fts).
    rewrite (Inv_incr_score g I) in Fsc, Fts.
    rewrite (Inv_sub_tickSpeed g I) in Fts.
    simpl tickSpeed. simpl score. rewrite Fts, Fsc.
    destruct (Z.eqb_spec (GoInt.rem (score g + 1) speedUpEvery) 0) as [E|E];
      destruct (Z.gtb_spec (tickSpeed g) 2) as [G|G]; simpl.
    + split; [lia|]. left. repeat split; auto; lia.
    + split; [lia|]. right. split; [reflexivity|]. intros (_ & _ & _ & _ & F). lia.
    + split; [lia|]. right. split; [reflexivity|]. tauto.
    + split; [lia|]. right. split; [reflexivity|]. tauto.
  - simpl tickSpeed. split; [lia|]. right. split; [reflexivity|].
    intros (_ & _ & Hnh' & _). rewrite Hnh in Hnh'. injection Hnh' as ->.
    congruence.
Qed.

Lemma plays_speed s s' :
  plays s s' -> reachable (fst s) (snd s) ->
  minTickSpeed <= tickSpeed (fst s') <= tickSpeed (fst s).
Proof.
  induction 1 as [[g r] | g r fuel k g1 r1 s HR HU _ IH]; simpl; intros R.
  - pose proof (inv_speed g (reachable_Inv g r R)). lia.
  - pose proof (reachable_Update _ _ _ _ _ _ R HU) as R1.
    specialize (IH R1). simpl in IH.
    unfold Update in HU. rewrite HR in HU.
    pose proof (reach_input k g r R) as Ri.
    destruct (tick_speed_step _ _ _ _ _ (reachable_Inv _ _ Ri) HU) as [Hs _].
    destruct (handle_input_frame k g) as [d E]. rewrite E in Hs. simpl in Hs.
    lia.
Qed.

(** C7. Between resets the tick speed never increases and never drops below
    the floor 2: a tick from a reachable state lowers it by exactly
    [speedDelta = 1] when food is eaten, the resulting score is a multiple of
    [speedUpEvery = 5] and the speed was strictly above 2, and otherwise
    leaves it unchanged; and along any play of [Update] calls that do not
    restart, the speed stays between 2 and its earlier value. *)
Theorem tick_speed_only_drops_to_floor :
  (forall g r fuel g' r',
      reachable g r -> tick fuel r g = Ok (g', r') ->
      minTickSpeed <= tickSpeed g' <= tickSpeed g /\
      ((tickSpeed g' = tickSpeed g - speedDelta /\
        running g /\ throttle_boundary g /\ new_head g = Some (food g) /\
        score g' = score g + 1 /\ GoInt.rem (score g') speedUpEvery = 0 /\
        tickSpeed g > minTickSpeed)
       \/
       (tickSpeed g' = tickSpeed g /\
        ~ (running g /\ throttle_boundary g /\ new_head g = Some (food g) /\
           GoInt.rem (score g + 1) speedUpEvery = 0 /\
           tickSpeed g > minTickSpeed)))) /\
  (forall g r g' r',
      reachable g r -> plays (g, r) (g', r') ->
      minTickSpeed <= tickSpeed g' <= tickSpeed g) /\
  minTickSpeed = 2 /\ speedDelta = 1 /\ speedUpEvery = 5.
Proof.
  split; [|split; [|repeat split]].
  - intros g r fuel g' r' R H.
    exact (tick_speed_step fuel r g g' r' (reachable_Inv g r R) H).
  - intros g r g' r' R P. exact (plays_speed _ _ P R).
Qed.

Lemma tick_speed_only_drops_to_floor_witness :
  reachable speedup_scenario (after_rounds demo_rng 5) /\
  exists g' r',
    tick 1 (after_rounds demo_rng 5) speedup_scenario = Ok (g', r') /\
    score g' = 5 /\ tickSpeed speedup_scenario = 8 /\ tickSpeed g' = 7 /\
    plays (speedup_scenario, after_rounds demo_rng 5) (g', r') /\
    minTickSpeed <= tickSpeed g' <= tickSpeed speedup_scenario.
Proof.
  split; [exact speedup_scenario_reachable|].
  destruct (tick 1 (after_rounds demo_rng 5) speedup_scenario)
    as [[g' r']| |] eqn:E; try (vm_compute in E; discriminate).
  exists g', r'. split; [reflexivity|].
  assert (P : plays (speedup_scenario, after_rounds demo_rng 5) (g', r')).
  { apply (plays_step _ _ 1%nat noKeys g' r'); [reflexivity | exact E|].
    apply plays_refl. }
  destruct tick_speed_only_drops_to_floor as (Hstep & Hplay & _).
  pose proof (Hplay _ _ _ _ speedup_scenario_reachable P) as Hbound.
  destruct (Hstep _ _ _ _ _ speedup_scenario_reachable E) as (_ & Hcase).
  vm_compute in E. injection E as <- <-.
  repeat split; try reflexivity; try exact P; apply Hbound.
Defined.

(** ** Reset *)

(** C9. Whenever [reset] returns, the snake is the three cells
    (20,15), (19,15), (18,15) -- head at (gridW/2, gridH/2), body to the
    left --, [dir] and [nextDir] are (1,0), the score is 0, the tick speed is
    the base value 8, the frame counter is 0, the game-over flag is clear and
    the food is a board cell off the snake; and [reset] does return as soon
    as the generator draws a cell off those three. *)
Theorem reset_initial_state :
  (forall fuel r g g' r',
      reset fuel r g = Ok (g', r') ->
      snake g' = [mkPoint (gridW / 2) (gridH / 2);
                  mkPoint (gridW / 2 - 1) (gridH / 2);
                  mkPoint (gridW / 2 - 2) (gridH / 2)] /\
      snake g' = [mkPoint 20 15; mkPoint 19 15; mkPoint 18 15] /\
      length (snake g') = 3%nat /\
      dir g' = mkPoint 1 0 /\ nextDir g' = mkPoint 1 0 /\
      score g' = 0 /\
      tickSpeed g' = baseTickSpeed /\ baseTickSpeed = 8 /\
      tickCount g' = 0 /\ gameOver g' = false /\
      in_grid (food g') /\ ~ In (food g') (snake g')) /\
  (forall k fuel r g,
      ~ In (drawn r k) [mkPoint 20 15; mkPoint 19 15; mkPoint 18 15] ->
      (k < fuel)%nat ->
      exists g' r', reset fuel r g = Ok (g', r')).
Proof.
  split.
  - intros fuel r g g' r' H. apply reset_Ok in H.
    destruct H as (k & _ & -> & _ & Hfree & _).
    apply occupies_not_In in Hfree.
    repeat split; try reflexivity; try exact Hfree; apply drawn_in_grid.
  - intros k fuel r g Hfree Hk. apply (reset_returns k); [|exact Hk].
    apply occupies_not_In, Hfree.
Qed.

Lemma reset_initial_state_witness :
  ~ In (drawn demo_rng 0) [mkPoint 20 15; mkPoint 19 15; mkPoint 18 15] /\
  exists g' r',
    reset 1 demo_rng zeroGame = Ok (g', r') /\
    snake g' = [mkPoint 20 15; mkPoint 19 15; mkPoint 18 15] /\
    dir g' = mkPoint 1 0 /\ nextDir g' = mkPoint 1 0 /\ score g' = 0 /\
    tickSpeed g' = 8 /\ tickCount g' = 0 /\ gameOver g' = false /\
    ~ In (food g') (snake g').
Proof.
  destruct reset_initial_state as (Hstate & Hret).
  assert (Hd : ~ In (drawn demo_rng 0)
                    [mkPoint 20 15; mkPoint 19 15; mkPoint 18 15])
    by (vm_compute; intuition discriminate).
  split; [exact Hd|].
  destruct (Hret 0%nat 1%nat demo_rng zeroGame Hd) as (g' & r' & E); [lia|].
  exists g', r'. split; [exact E|].
  destruct (Hstate _ _ _ _ _ E)
    as (_ & Hs & _ & Hdir & Hnd & Hsc & Hts & _ & Htc & Hgo & _ & Hfood).
  repeat split; assumption.
Defined.

(** ** Counting the outcomes of the food loop *)

Section Words.
Context {A : Type} (f : A -> bool) (univ : list A).

Lemma words_length n : length (words univ n) = (length univ ^ n)%nat.
Proof.
  induction n as [|n IH]; [reflexivity|].
  simpl words. rewrite length_flat_map.
  assert (E : forall l, list_sum (map (fun a => length (map (cons a) (words univ n))) l)
                        = (length l * length univ ^ n)%nat).
  { induction l as [|a l IHl]; [reflexivity|].
    simpl. rewrite length_map, IHl, IH. reflexivity. }
  rewrite E. reflexivity.
Qed.

Lemma words_spec n w :
  In w (words univ n) <-> length w = n /\ Forall (fun a => In a univ) w.
Proof.
  revert w. induction n as [|n IH]; intros w; simpl words.
  - split.
    + intros [<-|[]]. split; [reflexivity|constructor].
    + intros [H _]. destruct w; [left; reflexivity|discriminate].
  - rewrite in_flat_map. split.
    + intros (a & Ha & I). rewrite in_map_iff in I.
      destruct I as (w' & <- & I). apply IH in I. destruct I as [L F].
      split; [simpl; congruence | constructor; assumption].
    + intros [L F]. destruct w as [|a w']; [discriminate|].
      inversion F as [|? ? Ha F']; subst. exists a. split; [exact Ha|].
      apply in_map, IH. split; [simpl in L; congruence | exact F'].
Qed.

Lemma filter_forallb_cons a (W : list (list A)) :
  filter (forallb f) (map (cons a) W) =
  if f a then map (cons a) (filter (forallb f) W) else [].
Proof.
  induction W as [|w W IH]; simpl; [destruct (f a); reflexivity|].
  rewrite IH. destruct (f a); simpl; [|reflexivity].
  destruct (forallb f w); reflexivity.
Qed.

(** Of the words of length [n], those whose letters all satisfy [f] are as
    many as the satisfying letters, to the power [n]. *)
Lemma filter_forallb_words n :
  length (filter (forallb f) (words univ n)) = (length (filter f univ) ^ n)%nat.
Proof.
  induction n as [|n IH]; [reflexivity|].
  simpl words.
  assert (E : forall l,
    length (filter (forallb f) (flat_map (fun a => map (cons a) (words univ n)) l))
    = (length (filter f l) * length (filter f univ) ^ n)%nat).
  { induction l as [|a l IHl]; [reflexivity|].
    simpl flat_map. rewrite filter_app, length_app, IHl, filter_forallb_cons.
    simpl filter. destruct (f a); simpl; [|reflexivity].
    rewrite length_map, IH. reflexivity. }
  rewrite E. reflexivity.
Qed.

Lemma filter_length_le' l : (length (filter f l) <= length l)%nat.
Proof.
  induction l as [|a l IH]; simpl; [lia|]. destruct (f a); simpl; lia.
Qed.

Lemma filter_length_lt l x :
  In x l -> f x = false -> (length (filter f l) < length l)%nat.
Proof.
  induction l as [|a l IH]; simpl; [tauto|]. intros [->|I] Hx.
  - rewrite Hx. pose proof (filter_length_le' l). lia.
  - specialize (IH I Hx). destruct (f a); simpl; lia.
Qed.
End Words.

Lemma still_looping_spec n r g :
  still_looping n r g = true <->
  forall j, (j < n)%nat -> occupies (snake g) (drawn r j) = true.
Proof.
  unfold still_looping. split.
  - intros H j Hj. destruct (occupies (snake g) (drawn r j)) eqn:E; [reflexivity|].
    destruct (placeFood_returns j r g n E Hj) as (g' & r' & E').
    rewrite E' in H. discriminate.
  - intros H. rewrite placeFood_spins by exact H. reflexivity.
Qed.

Lemma nth_cells_X cs j d :
  (j < length cs)%nat ->
  nth (2 * j) (flat_map (fun c => [X c; Y c]) cs) 0 = X (nth j cs d).
Proof.
  revert j. induction cs as [|c cs IH]; intros j Hj; simpl in Hj; [lia|].
  destruct j as [|j]; [reflexivity|].
  replace (2 * S j)%nat with (S (S (2 * j))) by lia.
  simpl flat_map. simpl nth. apply IH. lia.
Qed.

Lemma nth_cells_Y cs j d :
  (j < length cs)%nat ->
  nth (2 * j + 1) (flat_map (fun c => [X c; Y c]) cs) 0 = Y (nth j cs d).
Proof.
  revert j. induction cs as [|c cs IH]; intros j Hj; simpl in Hj; [lia|].
  destruct j as [|j]; [reflexivity|].
  replace (2 * S j + 1)%nat with (S (S (2 * j + 1))) by lia.
  simpl flat_map. simpl nth. apply IH. lia.
Qed.

(** The generator built from a sequence of board cells draws those cells. *)
Lemma drawn_rng_of_cells cs j d :
  Forall in_grid cs -> (j < length cs)%nat ->
  drawn (rng_of_cells cs) j = nth j cs d.
Proof.
  intros F Hj. unfold drawn, rng_of_cells, tape. cbn [stream cursor].
  rewrite !Nat.add_0_l, (nth_cells_X cs j d Hj), (nth_cells_Y cs j d Hj).
  assert (G : in_grid (nth j cs d)).
  { rewrite Forall_forall in F. apply F, nth_In, Hj. }
  destruct G as [Gx Gy]. rewrite !Z.mod_small by assumption.
  destruct (nth j cs d); reflexivity.
Qed.

Lemma still_looping_cells n cs g :
  length cs = n -> Forall in_grid cs ->
  still_looping n (rng_of_cells cs) g = forallb (occupies (snake g)) cs.
Proof.
  intros L F. apply eq_true_iff_eq.
  rewrite still_looping_spec, forallb_forall. subst n. split.
  - intros H c I. destruct (In_nth cs c (mkPoint 0 0) I) as (j & Hj & <-).
    rewrite <- (drawn_rng_of_cells cs j _ F Hj). apply H, Hj.
  - intros H j Hj. rewrite (drawn_rng_of_cells cs j (mkPoint 0 0) F Hj).
    apply H, nth_In, Hj.
Qed.

(** Of the [1200 ^ n] sequences of [n] draws, exactly [covered g ^ n] leave
    the loop running. *)
Lemma still_looping_count n g :
  length (filter (fun cs => still_looping n (rng_of_cells cs) g) (sequences n))
  = (covered g ^ n)%nat.
Proof.
  unfold covered, sequences. rewrite <- filter_forallb_words.
  f_equal. apply filter_ext_in. intros cs I. apply words_spec in I.
  destruct I as [L F]. apply still_looping_cells; [exact L|].
  rewrite Forall_forall in *. intros c Hc. apply in_grid_all_cells_iff, F, Hc.
Qed.

Lemma covered_lt g c :
  in_grid c -> ~ In c (snake g) -> (covered g < 1200)%nat.
Proof.
  intros Hg Hfree. unfold covered. rewrite <- all_cells_length.
  apply (filter_length_lt _ _ c); [apply in_grid_all_cells, Hg|].
  apply occupies_not_In, Hfree.
Qed.

(** The degenerate case: a snake that covers the board keeps the loop
    running for ever. *)
Lemma placeFood_full_board fuel r g :
  (forall c, in_grid c -> In c (snake g)) -> placeFood fuel r g = Spin.
Proof.
  intros H. apply placeFood_spins. intros j _.
  apply occupies_In, H, drawn_in_grid.
Qed.

(** C6. Whenever [placeFood] returns, the food is a board cell that is not
    on the snake (and the snake is untouched).  The loop is a rejection
    sampler: it returns at the first round whose draw is off the snake, so it
    returns within [fuel] rounds as soon as one of the first [fuel] draws is
    free.  When at least one board cell is free, the sequences of [n] draws
    that leave the loop running are [covered g ^ n] out of [1200 ^ n], with
    [covered g < 1200]: the loop is left with probability 1. *)
Theorem placeFood_lands_off_snake :
  (forall fuel r g g' r',
      placeFood fuel r g = Ok (g', r') ->
      ~ In (food g') (snake g') /\ in_grid (food g') /\ snake g' = snake g) /\
  (forall g r k fuel,
      ~ In (drawn r k) (snake g) -> (k < fuel)%nat ->
      exists g' r', placeFood fuel r g = Ok (g', r')) /\
  (forall g c n,
      in_grid c -> ~ In c (snake g) ->
      (exists r g' r', drawn r 0 = c /\ placeFood 1 r g = Ok (g', r')) /\
      length (sequences n) = (1200 ^ n)%nat /\
      length (filter (fun cs => still_looping n (rng_of_cells cs) g)
                     (sequences n)) = (covered g ^ n)%nat /\
      (covered g < 1200)%nat).
Proof.
  split; [|split].
  - intros fuel r g g' r' H. apply placeFood_Ok in H.
    destruct H as (k & _ & -> & _ & Hfree & _). simpl.
    split; [apply occupies_not_In, Hfree|]. split; [apply drawn_in_grid|].
    reflexivity.
  - intros g r k fuel Hfree Hk. apply (placeFood_returns k); [|exact Hk].
    apply occupies_not_In, Hfree.
  - intros g c n Hg Hfree. split; [|split; [|split]].
    + assert (D : drawn (rng_of_cells [c]) 0 = c).
      { apply (drawn_rng_of_cells [c] 0%nat c); [|simpl; lia].
        constructor; [exact Hg | constructor]. }
      exists (rng_of_cells [c]).
      destruct (placeFood_returns 0%nat (rng_of_cells [c]) g 1%nat)
        as (g' & r' & E); [rewrite D; apply occupies_not_In, Hfree | lia |].
      exists g', r'. split; [exact D | exact E].
    + unfold sequences. rewrite words_length, all_cells_length. reflexivity.
    + apply still_looping_count.
    + exact (covered_lt g c Hg Hfree).
Qed.

Lemma placeFood_lands_off_snake_witness :
  (exists g' r',
     placeFood 2 (tape [20; 15; 5; 5]) eat_scenario = Ok (g', r') /\
     food g' = mkPoint 5 5 /\ ~ In (food g') (snake g')) /\
  (~ In (drawn (tape [20; 15; 5; 5]) 1) (snake eat_scenario) /\ (1 < 2)%nat) /\
  (in_grid (mkPoint 0 0) /\ ~ In (mkPoint 0 0) (snake eat_scenario) /\
   length (filter (fun cs => still_looping 1 (rng_of_cells cs) eat_scenario)
                  (sequences 1)) = (covered eat_scenario ^ 1)%nat /\
   (covered eat_scenario < 1200)%nat).
Proof.
  destruct placeFood_lands_off_snake as (Hfree & Hret & Hprob).
  assert (Hd : ~ In (drawn (tape [20; 15; 5; 5]) 1) (snake eat_scenario))
    by (vm_compute; intuition discriminate).
  assert (Hk : (1 < 2)%nat) by lia.
  assert (Hg : in_grid (mkPoint 0 0))
    by (unfold in_grid, gridW, gridH; simpl; lia).
  assert (Hc : ~ In (mkPoint 0 0) (snake eat_scenario))
    by (simpl; intuition discriminate).
  split; [|split].
  - destruct (Hret eat_scenario (tape [20; 15; 5; 5]) 1%nat 2%nat Hd Hk)
      as (g' & r' & E).
    exists g', r'. split; [exact E|]. split.
    + vm_compute in E. injection E as <- _. reflexivity.
    + exact (proj1 (Hfree _ _ _ _ _ E)).
  - exact (conj Hd Hk).
  - destruct (Hprob eat_scenario (mkPoint 0 0) 1%nat Hg Hc)
      as (_ & _ & Hcount & Hlt).
    exact (conj Hg (conj Hc (conj Hcount Hlt))).
Defined.

(** * Further properties of the game core *)

(** ** Consistency of reachable states *)

Lemma reachable_length g r : reachable g r -> (3 <= length (snake g))%nat.
Proof.
  induction 1 as [fuel r g r' H | fuel g r g' r' _ _ _ H
                 | k g r _ IH | fuel g r g' r' _ IH H].
  - apply reset_Ok in H. destruct H as (k & _ & -> & _). simpl. lia.
  - apply reset_Ok in H. destruct H as (k & _ & -> & _). simpl. lia.
  - destruct (handle_input_frame k g) as [d ->]. exact IH.
  - apply tick_Ok_outcome in H.
    destruct H as [Hgo | Hrun Hnb | p Hrun Hb Hnh Hc
                  | k Hrun Hb Hnh Hg Hfree Hk | p Hrun Hb Hnh Hg Hfree Hne].
    + exact IH.
    + exact IH.
    + exact IH.
    + simpl snake. destruct (fed_fields (food g) g) as (-> & _). simpl. lia.
    + change (snake (with_snake (removelast (p :: snake g)) (committed g)))
        with (removelast (p :: snake g)).
      rewrite removelast_cons_length. exact IH.
Qed.

(** X1. In every reachable state the snake is non-empty, lies on the board
    and has no cell twice, and the food is a board cell that is not on the
    snake. *)
Theorem reachable_state_consistent g r :
  reachable g r ->
  snake g <> [] /\ Forall in_grid (snake g) /\ NoDup (snake g) /\
  in_grid (food g) /\ ~ In (food g) (snake g).
Proof.
  intros R. pose proof (reachable_Inv g r R) as I.
  exact (conj (inv_nonempty g I) (conj (inv_cells g I) (conj (inv_nodup g I)
           (conj (inv_food_grid g I) (inv_food_free g I))))).
Qed.

Lemma reachable_state_consistent_witness :
  reachable speedup_scenario (after_rounds demo_rng 5) /\
  NoDup (snake speedup_scenario) /\
  ~ In (food speedup_scenario) (snake speedup_scenario).
Proof.
  split; [exact speedup_scenario_reachable|].
  destruct (reachable_state_consistent _ _ speedup_scenario_reachable)
    as (_ & _ & Hnd & _ & Hfood).
  exact (conj Hnd Hfood).
Defined.

Lemma score_bounds g r : reachable g r -> 0 <= score g <= 1197.
Proof.
  intros R. pose proof (reachable_Inv g r R) as I.
  pose proof (reachable_length g r R) as L3.
  pose proof (snake_fits _ (inv_cells g I) (inv_nodup g I)) as L.
  pose proof (inv_score g I) as S. lia.
Qed.

(** X2. In every reachable state the score is the number of cells the snake
    has grown by since the reset: [score = len(snake) - 3]; the snake has
    between 3 and 1200 cells, so the score is between 0 and 1197. *)
Theorem score_counts_growth g r :
  reachable g r ->
  score g = Z.of_nat (length (snake g)) - 3 /\
  (3 <= length (snake g) <= 1200)%nat /\
  0 <= score g <= 1197.
Proof.
  intros R. pose proof (reachable_Inv g r R) as I.
  pose proof (reachable_length g r R) as L3.
  pose proof (snake_fits _ (inv_cells g I) (inv_nodup g I)) as L.
  pose proof (inv_score g I) as S. repeat split; lia.
Qed.

Lemma score_counts_growth_witness :
  reachable speedup_scenario (after_rounds demo_rng 5) /\
  score speedup_scenario = Z.of_nat (length (snake speedup_scenario)) - 3.
Proof.
  split; [exact speedup_scenario_reachable|].
  exact (proj1 (score_counts_growth _ _ speedup_scenario_reachable)).
Defined.

(** X3. In every reachable state the frame counter is at least 0 and
    strictly below the tick speed, which is between 2 and 8: the counter
    never reaches 8. *)
Theorem frame_counter_below_speed g r :
  reachable g r ->
  0 <= tickCount g < tickSpeed g /\ 2 <= tickSpeed g <= 8.
Proof.
  intros R. pose proof (reachable_Inv g r R) as I.
  pose proof (inv_count g I). pose proof (inv_speed g I).
  unfold minTickSpeed, baseTickSpeed in *. lia.
Qed.

Lemma frame_counter_below_speed_witness :
  reachable eat_scenario (after_rounds demo_rng 1) /\
  0 <= tickCount eat_scenario < tickSpeed eat_scenario.
Proof.
  split; [exact eat_scenario_reachable|].
  exact (proj1 (frame_counter_below_speed _ _ eat_scenario_reachable)).
Defined.

(** ** The branches of the tick, exactly *)

(** X4. The tick panics exactly when the game is running, the frame counter
    reaches the tick speed and the snake is empty ([g.snake[0]] out of
    range); it does so whatever the generator and the allowance are. *)
Theorem tick_panics_iff fuel r g :
  tick fuel r g = Panic <->
  running g /\ throttle_boundary g /\ snake g = [].
Proof.
  split.
  - intros H. destruct (gameOver g) eqn:Hgo.
    { rewrite tick_game_over in H by exact Hgo. discriminate. }
    destruct (GoInt.incr (tickCount g) <? tickSpeed g) eqn:Hb.
    { rewrite tick_throttled in H;
        [discriminate | exact Hgo | unfold throttle_boundary; congruence]. }
    destruct (snake g) as [|h t] eqn:Hs; [repeat split; assumption|].
    exfalso. apply (tick_no_panic fuel r g); [rewrite Hs; discriminate|exact H].
  - intros (Hrun & Hb & Hs). apply tick_empty; assumption.
Qed.

Lemma tick_panics_iff_witness :
  tick 0 demo_rng (with_tickCount 7 zeroGame) = Panic.
Proof.
  apply (proj2 (tick_panics_iff 0 demo_rng (with_tickCount 7 zeroGame))).
  split; [reflexivity|]. split; [vm_compute|]; reflexivity.
Defined.

(** X5. A plain move: on a movement tick of a running game whose new head
    cell is on the board, off the snake and not the food, the tick returns
    without drawing from the generator; the new snake is the new head
    followed by the old snake without its last cell, so the length is kept;
    score, food and tick speed are unchanged, the game goes on, the buffered
    direction is committed and the frame counter is cleared. *)
Theorem plain_move_shifts_snake g r fuel p :
  running g -> throttle_boundary g ->
  new_head g = Some p -> in_grid p -> ~ In p (snake g) -> p <> food g ->
  exists g', tick fuel r g = Ok (g', r) /\
    snake g' = p :: removelast (snake g) /\
    length (snake g') = length (snake g) /\
    score g' = score g /\ food g' = food g /\ tickSpeed g' = tickSpeed g /\
    gameOver g' = false /\ dir g' = nextDir g /\ nextDir g' = nextDir g /\
    tickCount g' = 0.
Proof.
  intros Hrun Hb Hnh Hg Hfree Hne.
  destruct (new_head_inv g p Hnh) as (h & t & Hs & Hp).
  exists (with_snake (removelast (p :: snake g)) (committed g)).
  rewrite (tick_boundary fuel r g h t Hrun Hb Hs). cbv zeta. rewrite <- Hp.
  rewrite (proj2 (out_of_bounds_false p) Hg).
  rewrite (proj2 (occupies_not_In _ _) Hfree).
  rewrite (proj2 (Point_eqb_neq _ _) Hne).
  split; [reflexivity|].
  change (snake (with_snake (removelast (p :: snake g)) (committed g)))
    with (removelast (p :: snake g)).
  rewrite removelast_cons_length. rewrite Hs at 1.
  rewrite removelast_cons_cons, <- Hs.
  repeat split; try reflexivity. exact Hrun.
Qed.

Lemma plain_move_shifts_snake_witness :
  exists g',
    tick 0 demo_rng (with_nextDir (mkPoint 0 (-1)) eat_scenario)
      = Ok (g', demo_rng) /\
    snake g' = [mkPoint 20 14; mkPoint 20 15; mkPoint 19 15] /\
    score g' = 0 /\ food g' = mkPoint 21 15.
Proof.
  destruct (plain_move_shifts_snake
              (with_nextDir (mkPoint 0 (-1)) eat_scenario) demo_rng 0%nat
              (mkPoint 20 14))
    as (g' & E & Hs & _ & Hsc & Hf & _).
  - reflexivity.
  - vm_compute. reflexivity.
  - vm_compute. reflexivity.
  - unfold in_grid, gridW, gridH. simpl. lia.
  - simpl. intuition discriminate.
  - simpl. discriminate.
  - exists g'. repeat split; assumption.
Defined.

(** X6. The game ends only by a collision: when a tick of a running game
    returns, the game-over flag is set exactly if the tick was a movement
    tick whose new head cell is off the board or on the snake. *)
Theorem game_over_only_by_collision fuel r g g' r' :
  running g -> tick fuel r g = Ok (g', r') ->
  (gameOver g' = true <->
   throttle_boundary g /\
   exists p, new_head g = Some p /\ (~ in_grid p \/ In p (snake g))).
Proof.
  unfold running. intros Hrun H. apply tick_Ok_outcome in H.
  destruct H as [Hgo | _ Hnb | p _ Hb Hnh Hc
                | k _ Hb Hnh Hg Hfree Hk | p _ Hb Hnh Hg Hfree Hne].
  - congruence.
  - simpl. rewrite Hrun. split; [discriminate | tauto].
  - simpl. split; [|reflexivity]. intros _. split; [exact Hb|]. eauto.
  - simpl. destruct (fed_fields (food g) g) as (_ & _ & _ & _ & _ & _ & -> & _).
    rewrite Hrun. split; [discriminate|].
    intros (_ & p & Hp & Hc). rewrite Hnh in Hp. injection Hp as <-. tauto.
  - simpl. rewrite Hrun. split; [discriminate|].
    intros (_ & q & Hq & Hc). rewrite Hnh in Hq. injection Hq as <-. tauto.
Qed.

Lemma game_over_only_by_collision_witness :
  running wall_scenario /\
  exists g',
    tick 0 demo_rng wall_scenario = Ok (g', demo_rng) /\
    gameOver g' = true /\
    throttle_boundary wall_scenario /\
    exists p, new_head wall_scenario = Some p /\
              (~ in_grid p \/ In p (snake wall_scenario)).
Proof.
  assert (Hrun : running wall_scenario) by reflexivity.
  split; [exact Hrun|].
  destruct (tick 0 demo_rng wall_scenario) as [[g' r']| |] eqn:E;
    try (vm_compute in E; discriminate).
  assert (Hr : r' = demo_rng /\ gameOver g' = true).
  { vm_compute in E. injection E as <- <-. split; reflexivity. }
  destruct Hr as [-> Hgo]. exists g'. split; [reflexivity|].
  split; [exact Hgo|].
  exact (proj1 (game_over_only_by_collision 0 demo_rng wall_scenario g'
                  demo_rng Hrun E) Hgo).
Defined.

(** X7. The tick draws from the generator only when it eats: whenever it
    returns, either the generator and the food are as they were, or the game
    was running at a movement tick whose new head is the food cell, and then
    the food has moved to the first drawn cell that is off the grown snake --
    a cell other than the old food -- and two raw values per round were
    consumed. *)
Theorem generator_used_only_when_eating fuel r g g' r' :
  tick fuel r g = Ok (g', r') ->
  (r' = r /\ food g' = food g) \/
  (running g /\ throttle_boundary g /\ new_head g = Some (food g) /\
   exists k, (k < fuel)%nat /\
     r' = after_rounds r (S k) /\ food g' = drawn r k /\
     food g' <> food g /\ ~ In (food g') (snake g') /\
     forall j, (j < k)%nat -> In (drawn r j) (food g :: snake g)).
Proof.
  intros H. destruct (gameOver g) eqn:Hgo.
  { rewrite tick_game_over in H by exact Hgo. injection H as <- <-. auto. }
  destruct (GoInt.incr (tickCount g) <? tickSpeed g) eqn:Hb.
  { rewrite tick_throttled in H;
      [|exact Hgo | unfold throttle_boundary; congruence].
    injection H as <- <-. auto. }
  destruct (snake g) as [|h t] eqn:Hs.
  { rewrite tick_empty in H by assumption. discriminate. }
  pose proof (new_head_cons g h t Hs) as Hnh.
  rewrite (tick_boundary fuel r g h t Hgo Hb Hs) in H. cbv zeta in H.
  destruct (out_of_bounds _); [injection H as <- <-; auto|].
  destruct (occupies _ _); [injection H as <- <-; auto|].
  destruct (Point_eqb _ _) eqn:Hfood; [|injection H as <- <-; auto].
  apply Point_eqb_eq in Hfood. rewrite Hfood in *. right.
  apply placeFood_Ok in H. destruct H as (k & Hk & -> & -> & Hfree & Hbusy).
  destruct (fed_fields (food g) g) as (Fs & _).
  rewrite Fs in Hfree, Hbusy. apply occupies_not_In in Hfree.
  repeat split; try assumption. exists k.
  split; [exact Hk|]. split; [reflexivity|]. split; [reflexivity|].
  simpl food. simpl snake. rewrite Fs. split; [|split].
  - intros E. apply Hfree. left. symmetry. exact E.
  - exact Hfree.
  - intros j Hj. rewrite <- Hs. apply occupies_In, Hbusy, Hj.
Qed.

Lemma generator_used_only_when_eating_witness :
  exists g' r',
    tick 1 (after_rounds demo_rng 1) eat_scenario = Ok (g', r') /\
    r' = after_rounds demo_rng 2 /\ food g' = mkPoint 22 15.
Proof.
  destruct (tick 1 (after_rounds demo_rng 1) eat_scenario)
    as [[g' r']| |] eqn:E; try (vm_compute in E; discriminate).
  exists g', r'. split; [reflexivity|].
  destruct (generator_used_only_when_eating _ _ _ _ _ E)
    as [[Hr Hf] | (_ & _ & _ & k & Hk & Hr & Hf & _)].
  - exfalso. vm_compute in E. injection E as <- _. discriminate Hf.
  - assert (k = 0%nat) by lia. subst k. split; [exact Hr|].
    rewrite Hf. vm_compute. reflexivity.
Defined.

(** ** Whole frames *)

Lemma with_nextDir_twice d d' g :
  with_nextDir d' (with_nextDir d g) = with_nextDir d' g.
Proof. reflexivity. Qed.

(** One frame of a running game below the throttle: the counter goes up by
    one, [nextDir] may be rewritten, nothing else changes. *)
Lemma Update_throttled fuel k r g :
  Inv g -> running g -> tickCount g + 1 < tickSpeed g ->
  exists d,
    Update fuel k r g = Ok (with_tickCount (tickCount g + 1) (with_nextDir d g), r).
Proof.
  intros I Hrun Hlt. destruct (handle_input_frame k g) as [d E]. exists d.
  unfold Update. unfold running in Hrun. rewrite Hrun, andb_false_r, E.
  rewrite tick_throttled.
  - simpl tickCount. rewrite (Inv_incr_tickCount g I). reflexivity.
  - exact Hrun.
  - unfold throttle_boundary. simpl tickCount. simpl tickSpeed.
    rewrite (Inv_incr_tickCount g I).
    destruct (Z.ltb_spec (tickCount g + 1) (tickSpeed g)); [discriminate|lia].
Qed.

(** X8. The throttle: from a reachable running state, as long as the frame
    counter stays below the tick speed, frames played with any keys leave
    the snake, the moving direction, the food, the score and the tick speed
    untouched and draw nothing from the generator; each frame adds one to the
    counter.  After [tickSpeed - 1 - tickCount] such frames the next tick is
    a movement tick. *)
Theorem throttle_holds_the_snake ks :
  forall g r fuel,
  reachable g r -> running g ->
  tickCount g + Z.of_nat (length ks) < tickSpeed g ->
  exists g', frames fuel ks r g = Ok (g', r) /\
    snake g' = snake g /\ dir g' = dir g /\ food g' = food g /\
    score g' = score g /\ tickSpeed g' = tickSpeed g /\
    gameOver g' = false /\
    tickCount g' = tickCount g + Z.of_nat (length ks) /\
    (tickCount g' + 1 = tickSpeed g -> throttle_boundary g').
Proof.
  induction ks as [|k ks IH]; intros g r fuel R Hrun Hlt.
  - exists g. simpl. repeat split; try reflexivity; try exact Hrun; try lia.
    intros Hb. unfold throttle_boundary.
    rewrite (Inv_incr_tickCount g (reachable_Inv g r R)).
    apply Z.ltb_ge. lia.
  - pose proof (reachable_Inv g r R) as I.
    change (length (k :: ks)) with (S (length ks)) in *.
    rewrite Nat2Z.inj_succ in *.
    destruct (Update_throttled fuel k r g I Hrun) as [d E]; [lia|].
    pose proof (reachable_Update _ _ _ _ _ _ R E) as R1.
    destruct (IH _ r fuel R1) as (g' & F & Hs & Hd & Hf & Hsc & Hts & Hgo & Htc & Hb).
    + exact Hrun.
    + simpl. lia.
    + exists g'. simpl frames. rewrite E. split; [exact F|].
      simpl in Hs, Hd, Hf, Hsc, Hts, Htc, Hb.
      repeat split; try assumption. lia.
Qed.

Lemma throttle_holds_the_snake_witness :
  reachable (with_tickCount 0 eat_scenario) (after_rounds demo_rng 1) /\
  exists g',
    frames 0 [noKeys; mkKeys true true false false false false false false false;
              noKeys; noKeys; noKeys; noKeys; noKeys]
           (after_rounds demo_rng 1) (with_tickCount 0 eat_scenario)
      = Ok (g', after_rounds demo_rng 1) /\
    snake g' = snake eat_scenario /\ tickCount g' = 7 /\
    throttle_boundary g'.
Proof.
  assert (R0 : reachable (with_tickCount 0 eat_scenario) (after_rounds demo_rng 1)).
  { apply (reach_NewGame 1 demo_rng). vm_compute. reflexivity. }
  split; [exact R0|].
  destruct (throttle_holds_the_snake
              [noKeys; mkKeys true true false false false false false false false;
               noKeys; noKeys; noKeys; noKeys; noKeys]
              _ _ 0%nat R0)
    as (g' & F & Hs & _ & _ & _ & _ & _ & Htc & Hb).
  - reflexivity.
  - vm_compute. reflexivity.
  - exists g'. split; [exact F|]. split; [exact Hs|]. split; [exact Htc|].
    apply Hb. rewrite Htc. reflexivity.
Defined.

Lemma placeFood_reads_snake_only fuel r g1 g2 :
  snake g1 = snake g2 ->
  placeFood fuel r g1 =
  match placeFood fuel r g2 with
  | Ok (g', r') => Ok (with_food (food g') g1, r')
  | Panic => Panic
  | Spin => Spin
  end.
Proof.
  intros Hs. revert r. induction fuel as [|fuel IH]; intros r; [reflexivity|].
  rewrite !placeFood_round, Hs.
  destruct (occupies (snake g2) (drawn r 0)); [apply IH | reflexivity].
Qed.

(** [reset] overwrites every field: only the food cell it returns depends
    on anything, and that on the generator alone. *)
Lemma reset_normal_form fuel r g :
  reset fuel r g =
  match placeFood fuel r (with_snake initial_snake zeroGame) with
  | Ok (g', r') =>
      Ok (mkGame initial_snake (mkPoint 1 0) (mkPoint 1 0) (food g')
                 0 0 baseTickSpeed false true, r')
  | Panic => Panic
  | Spin => Spin
  end.
Proof.
  unfold reset.
  rewrite (placeFood_reads_snake_only fuel r _
             (with_snake initial_snake zeroGame)) by reflexivity.
  destruct (placeFood fuel r (with_snake initial_snake zeroGame))
    as [[g' r']| |]; reflexivity.
Qed.

Lemma reset_forgets fuel r g1 g2 : reset fuel r g1 = reset fuel r g2.
Proof. rewrite (reset_normal_form fuel r g1). symmetry. apply reset_normal_form. Qed.

(** X9. The [R] key: while the game is running it is ignored -- the frame is
    the one played with [R] released; on a game that is over, the frame is a
    restart whose outcome does not depend on the old game at all: it is what
    [NewGame] gives with the same generator. *)
Theorem R_restarts_only_a_finished_game fuel k r g :
  (running g -> Update fuel k r g = Update fuel (release_R k) r g) /\
  (gameOver g = true -> KeyR k = true ->
   Update fuel k r g = NewGame fuel r).
Proof.
  split.
  - unfold running, Update. intros ->. rewrite !andb_false_r.
    destruct k; reflexivity.
  - intros Hgo Hr. unfold Update, NewGame. rewrite Hr, Hgo. simpl.
    apply reset_forgets.
Qed.

Lemma R_restarts_only_a_finished_game_witness :
  running eat_scenario /\
  Update 1 (mkKeys true false false false false false false false false)
         (after_rounds demo_rng 1) eat_scenario
  = Update 1 noKeys (after_rounds demo_rng 1) eat_scenario /\
  gameOver over_scenario = true /\
  Update 1 (mkKeys true false false false false false false false false)
         demo_rng over_scenario
  = NewGame 1 demo_rng.
Proof.
  assert (Hrun : running eat_scenario) by reflexivity.
  assert (Hgo : gameOver over_scenario = true) by reflexivity.
  split; [exact Hrun|]. split.
  - exact (proj1 (R_restarts_only_a_finished_game 1
             (mkKeys true false false false false false false false false)
             (after_rounds demo_rng 1) eat_scenario) Hrun).
  - split; [exact Hgo|].
    exact (proj2 (R_restarts_only_a_finished_game 1
             (mkKeys true false false false false false false false false)
             demo_rng over_scenario) Hgo eq_refl).
Defined.

Lemma plays_game_over s s' :
  plays s s' -> gameOver (fst s) = true ->
  snd s' = snd s /\ exists d, fst s' = with_nextDir d (fst s).
Proof.
  induction 1 as [[g r] | g r fuel k g1 r1 s HR HU _ IH]; simpl; intros Hgo.
  - split; [reflexivity|]. exists (nextDir g). destruct g; reflexivity.
  - rewrite Hgo, andb_true_r in HR.
    destruct (Update_game_over fuel k r g Hgo HR) as [E [d Hd]].
    rewrite E in HU. injection HU as <- <-. rewrite Hd in IH. simpl in IH.
    destruct (IH Hgo) as [Hr [d' Hd']]. split; [exact Hr|].
    exists d'. rewrite Hd'. reflexivity.
Qed.

(** X10. A finished game stays finished until a restart: along any run of
    [Update] calls that do not take the [R] branch, a state whose game-over
    flag is set changes in its buffered [nextDir] at most -- snake, moving
    direction, food, score, frame counter, tick speed and the flag stay --
    and nothing is drawn from the generator. *)
Theorem finished_game_changes_only_nextDir g r g' r' :
  gameOver g = true -> plays (g, r) (g', r') ->
  r' = r /\ exists d, g' = with_nextDir d g.
Proof.
  intros Hgo P. exact (plays_game_over _ _ P Hgo).
Qed.

Lemma finished_game_changes_only_nextDir_witness :
  gameOver over_scenario = true /\
  plays (over_scenario, demo_rng)
        (with_nextDir (mkPoint 0 1) over_scenario, demo_rng) /\
  exists d, with_nextDir (mkPoint 0 1) over_scenario
            = with_nextDir d over_scenario.
Proof.
  assert (Hgo : gameOver over_scenario = true) by reflexivity.
  assert (P : plays (over_scenario, demo_rng)
                    (with_nextDir (mkPoint 0 1) over_scenario, demo_rng)).
  { apply (plays_step _ _ 0%nat
             (mkKeys false false false true false false false false false)
             (with_nextDir (mkPoint 0 1) over_scenario) demo_rng);
      [reflexivity | reflexivity | apply plays_refl]. }
  split; [exact Hgo|]. split; [exact P|].
  exact (proj2 (finished_game_changes_only_nextDir _ _ _ _ Hgo P)).
Defined.

Lemma tick_length_mono fuel r g g' r' :
  tick fuel r g = Ok (g', r') -> (length (snake g) <= length (snake g'))%nat.
Proof.
  intros H. apply tick_Ok_outcome in H.
  destruct H as [Hgo | Hrun Hnb | p Hrun Hb Hnh Hc
                | k Hrun Hb Hnh Hg Hfree Hk | p Hrun Hb Hnh Hg Hfree Hne].
  - lia.
  - simpl. lia.
  - simpl. lia.
  - simpl snake. destruct (fed_fields (food g) g) as (-> & _). simpl. lia.
  - change (snake (with_snake (removelast (p :: snake g)) (committed g)))
      with (removelast (p :: snake g)).
    rewrite removelast_cons_length. lia.
Qed.

Lemma plays_length s s' :
  plays s s' -> (length (snake (fst s)) <= length (snake (fst s')))%nat.
Proof.
  induction 1 as [[g r] | g r fuel k g1 r1 s HR HU _ IH]; simpl; [lia|].
  unfold Update in HU. rewrite HR in HU.
  apply tick_length_mono in HU.
  destruct (handle_input_frame k g) as [d E]. rewrite E in HU.
  simpl in HU, IH. lia.
Qed.

Lemma plays_reachable s s' :
  plays s s' -> reachable (fst s) (snd s) -> reachable (fst s') (snd s').
Proof.
  induction 1 as [[g r] | g r fuel k g1 r1 s HR HU _ IH]; simpl; intros R.
  - exact R.
  - apply IH. exact (reachable_Update _ _ _ _ _ _ R HU).
Qed.

(** X11. Between resets nothing is lost: along any run of [Update] calls
    from a reachable state that do not take the [R] branch, the snake never
    gets shorter and the score never goes down; the score gained is exactly
    the number of cells gained. *)
Theorem play_never_shrinks g r g' r' :
  reachable g r -> plays (g, r) (g', r') ->
  (length (snake g) <= length (snake g'))%nat /\
  score g <= score g' /\
  score g' - score g
  = Z.of_nat (length (snake g')) - Z.of_nat (length (snake g)).
Proof.
  intros R P. pose proof (plays_length _ _ P) as L. simpl in L.
  pose proof (plays_reachable _ _ P R) as R'. simpl in R'.
  pose proof (inv_score g (reachable_Inv g r R)).
  pose proof (inv_score g' (reachable_Inv g' r' R')).
  repeat split; lia.
Qed.

Lemma play_never_shrinks_witness :
  reachable eat_scenario (after_rounds demo_rng 1) /\
  exists g' r',
    plays (eat_scenario, after_rounds demo_rng 1) (g', r') /\
    length (snake g') = 4%nat /\ score eat_scenario <= score g'.
Proof.
  split; [exact eat_scenario_reachable|].
  destruct (Update 1 noKeys (after_rounds demo_rng 1) eat_scenario)
    as [[g' r']| |] eqn:E; try (vm_compute in E; discriminate).
  assert (P : plays (eat_scenario, after_rounds demo_rng 1) (g', r')).
  { apply (plays_step _ _ 1%nat noKeys g' r'); [reflexivity | exact E|].
    apply plays_refl. }
  exists g', r'. split; [exact P|]. split.
  - vm_compute in E. injection E as <- _. reflexivity.
  - exact (proj1 (proj2 (play_never_shrinks _ _ _ _ eat_scenario_reachable P))).
Defined.

(** ** The shape of the snake *)

Lemma chain_removelast cells : chain cells -> chain (removelast cells).
Proof.
  induction cells as [|a rest IH]; [trivial|].
  destruct rest as [|b rest']; [trivial|].
  intros [Hab Hc]. rewrite removelast_cons_cons.
  specialize (IH Hc). destruct rest' as [|c rest'']; [exact I|].
  rewrite removelast_cons_cons in *. split; assumption.
Qed.

Lemma adjacent_step h i : in_grid h -> adjacent (step_from h (delta i)) h.
Proof.
  intros Hg. rewrite (step_from_delta h i Hg). unfold adjacent.
  destruct i; simpl; lia.
Qed.

Lemma reachable_chain g r : reachable g r -> chain (snake g).
Proof.
  induction 1 as [fuel r g r' H | fuel g r g' r' _ _ _ H
                 | k g r _ IH | fuel g r g' r' R IH H].
  - apply reset_Ok in H. destruct H as (k & _ & -> & _).
    simpl. unfold adjacent. simpl. lia.
  - apply reset_Ok in H. destruct H as (k & _ & -> & _).
    simpl. unfold adjacent. simpl. lia.
  - destruct (handle_input_frame k g) as [d ->]. exact IH.
  - pose proof (reachable_Inv g r R) as Hinv. apply tick_Ok_outcome in H.
    destruct H as [Hgo | Hrun Hnb | p Hrun Hb Hnh Hc
                  | k Hrun Hb Hnh Hg Hfree Hk | p Hrun Hb Hnh Hg Hfree Hne];
      try exact IH.
    + simpl snake. destruct (fed_fields (food g) g) as (-> & _).
      destruct (new_head_inv g _ Hnh) as (h & t & Hs & Hp).
      destruct (inv_nextDir g Hinv) as [i Hi].
      pose proof (inv_cells g Hinv) as F. rewrite Hs in *.
      split; [|exact IH]. rewrite Hp, Hi. apply adjacent_step.
      inversion F; assumption.
    + change (snake (with_snake (removelast (p :: snake g)) (committed g)))
        with (removelast (p :: snake g)).
      apply chain_removelast.
      destruct (new_head_inv g _ Hnh) as (h & t & Hs & Hp).
      destruct (inv_nextDir g Hinv) as [i Hi].
      pose proof (inv_cells g Hinv) as F. rewrite Hs in *.
      split; [|exact IH]. rewrite Hp, Hi. apply adjacent_step.
      inversion F; assumption.
Qed.

(** X12. In every reachable state the snake is one unbroken path: each cell
    shares an edge with the next one (their coordinates differ by 1 in
    exactly one axis). *)
Theorem snake_is_contiguous g r : reachable g r -> chain (snake g).
Proof. apply reachable_chain. Qed.

Lemma snake_is_contiguous_witness :
  reachable speedup_scenario (after_rounds demo_rng 5) /\
  chain (snake speedup_scenario).
Proof.
  split; [exact speedup_scenario_reachable|].
  exact (snake_is_contiguous _ _ speedup_scenario_reachable).
Defined.

(** ** The speed ramp *)

Lemma speed_for_score_step s ts :
  0 <= s -> ts = speed_for_score s ->
  (if (GoInt.rem (s + 1) speedUpEvery =? 0) && (ts >? 2) then ts - 1 else ts)
  = speed_for_score (s + 1).
Proof.
  unfold speed_for_score, GoInt.rem, minTickSpeed, baseTickSpeed, speedUpEvery.
  intros Hs ->. rewrite Z.rem_mod_nonneg by lia.
  destruct (Z.eqb_spec ((s + 1) mod 5) 0) as [E|E];
    destruct (Z.gtb_spec (Z.max 2 (8 - s / 5)) 2) as [G|G]; cbn [andb];
    Z.to_euclidean_division_equations; lia.
Qed.

Lemma reachable_speed g r :
  reachable g r -> tickSpeed g = speed_for_score (score g).
Proof.
  induction 1 as [fuel r g r' H | fuel g r g' r' _ _ _ H
                 | k g r _ IH | fuel g r g' r' R IH H].
  - apply reset_Ok in H. destruct H as (k & _ & -> & _). reflexivity.
  - apply reset_Ok in H. destruct H as (k & _ & -> & _). reflexivity.
  - destruct (handle_input_frame k g) as [d ->]. exact IH.
  - pose proof (reachable_Inv g r R) as Hinv.
    pose proof (reachable_length g r R) as L.
    pose proof (inv_score g Hinv) as Hsc.
    apply tick_Ok_outcome in H.
    destruct H as [Hgo | Hrun Hnb | p Hrun Hb Hnh Hc
                  | k Hrun Hb Hnh Hg Hfree Hk | p Hrun Hb Hnh Hg Hfree Hne];
      try exact IH.
    simpl tickSpeed. simpl score.
    destruct (fed_fields (food g) g) as (_ & _ & _ & _ & -> & _ & _ & _ & ->).
    rewrite (Inv_incr_score g Hinv), (Inv_sub_tickSpeed g Hinv).
    apply speed_for_score_step; [lia | exact IH].
Qed.

(** X13. The speed ramp in closed form: in every reachable state the tick
    speed is determined by the score, [max 2 (8 - score / 5)] -- 8 frames per
    move up to score 4, one frame less for every 5 points, and 2 from score
    30 on. *)
Theorem tick_speed_follows_score g r :
  reachable g r ->
  tickSpeed g = Z.max 2 (8 - score g / 5) /\
  (score g < 5 -> tickSpeed g = 8) /\
  (30 <= score g -> tickSpeed g = 2).
Proof.
  intros R. pose proof (reachable_speed g r R) as E.
  pose proof (score_bounds g r R) as B.
  unfold speed_for_score, minTickSpeed, baseTickSpeed, speedUpEvery in E.
  split; [exact E|]. rewrite E.
  split; intros H; Z.to_euclidean_division_equations; lia.
Qed.

Lemma tick_speed_follows_score_witness :
  reachable speedup_scenario (after_rounds demo_rng 5) /\
  tickSpeed speedup_scenario = Z.max 2 (8 - score speedup_scenario / 5).
Proof.
  split; [exact speedup_scenario_reachable|].
  exact (proj1 (tick_speed_follows_score _ _ speedup_scenario_reachable)).
Defined.

(** ** The input block *)

Lemma last_cons_default {A : Type} (a d : A) l : last (a :: l) d = last l a.
Proof.
  revert a d. induction l as [|b l IH]; intros a d; [reflexivity|].
  change (last (a :: b :: l) d) with (last (b :: l) d).
  rewrite (IH b d), (IH b a). reflexivity.
Qed.

(** When the snake moves along a unit delta, the guard of an intent lets
    through everything but the reverse of that delta. *)
Lemma set_direction_unit i j g :
  dir g = delta j ->
  set_direction i g =
  if not_reverse_of (dir g) i then with_nextDir (delta i) g else g.
Proof.
  destruct g as [sn d nd fd sc tc ts go st]. simpl. intros ->.
  destruct i, j; reflexivity.
Qed.

Lemma intents_buffer_last l :
  forall j g, dir g = delta j ->
  fold_left (fun g i => set_direction i g) l g =
  with_nextDir
    (last (map delta (filter (not_reverse_of (dir g)) l)) (nextDir g)) g.
Proof.
  induction l as [|i l IH]; intros j g Hd; simpl.
  - destruct g; reflexivity.
  - rewrite (set_direction_unit i j g Hd).
    destruct (not_reverse_of (dir g) i).
    + rewrite (IH j (with_nextDir (delta i) g)) by exact Hd.
      simpl map. rewrite last_cons_default. reflexivity.
    + apply (IH j g Hd).
Qed.

(** X14. The input block, for a snake moving along one of the four unit
    deltas: an intent is buffered exactly when it is not the reverse of the
    moving direction; and when several direction keys are held in one frame,
    the buffered direction is that of the last allowed one in the order Up,
    Down, Left, Right (the arrow key and the letter key of a direction count
    alike); with no allowed key held, [nextDir] stays.  Nothing but
    [nextDir] is written. *)
Theorem input_block_buffers_last_allowed g j :
  dir g = delta j ->
  (forall i,
     set_direction i g =
     if Point_eqb (delta i) (reverse (dir g)) then g
     else with_nextDir (delta i) g) /\
  (forall k,
     handle_input k g =
     with_nextDir
       (last (map delta (filter (not_reverse_of (dir g)) (intents_of k)))
             (nextDir g)) g).
Proof.
  intros Hd. split.
  - intros i. rewrite (set_direction_unit i j g Hd). unfold not_reverse_of.
    destruct (Point_eqb (delta i) (reverse (dir g))); reflexivity.
  - intros k. rewrite handle_input_fold. apply (intents_buffer_last _ j g Hd).
Qed.

Lemma input_block_buffers_last_allowed_witness :
  dir eat_scenario = delta Right /\
  set_direction Up eat_scenario = with_nextDir (mkPoint 0 (-1)) eat_scenario /\
  handle_input (mkKeys false true false false true true false false false)
               eat_scenario
  = with_nextDir (mkPoint 0 1) eat_scenario.
Proof.
  assert (Hd : dir eat_scenario = delta Right) by reflexivity.
  destruct (input_block_buffers_last_allowed eat_scenario Right Hd) as [Hi Hk].
  split; [exact Hd|]. split.
  - rewrite (Hi Up). reflexivity.
  - rewrite (Hk (mkKeys false true false false true true false false false)).
    reflexivity.
Defined.

(** ** The food loop at its limits *)

(** X15. The degenerate case of the food loop: if the snake covers every
    board cell, [placeFood] never returns, whatever the generator draws and
    however many rounds it is given; and conversely, if one round never
    suffices whatever is drawn, the snake covers the board. *)
Theorem placeFood_spins_iff_board_full g :
  (forall c, in_grid c -> In c (snake g)) <->
  (forall fuel r, placeFood fuel r g = Spin).
Proof.
  split.
  - intros H fuel r. apply placeFood_full_board, H.
  - intros H c Hg. apply occupies_In.
    destruct (occupies (snake g) c) eqn:E; [reflexivity|].
    assert (D : drawn (rng_of_cells [c]) 0 = c).
    { apply (drawn_rng_of_cells [c] 0%nat c); [|simpl; lia].
      constructor; [exact Hg | constructor]. }
    destruct (placeFood_returns 0%nat (rng_of_cells [c]) g 1%nat)
      as (g' & r' & E'); [rewrite D; exact E | lia|].
    rewrite H in E'. discriminate.
Qed.

Lemma placeFood_spins_iff_board_full_witness :
  (forall c, in_grid c -> In c (snake full_board_scenario)) /\
  placeFood 5 demo_rng full_board_scenario = Spin.
Proof.
  assert (H : forall c, in_grid c -> In c (snake full_board_scenario)).
  { intros c Hc. apply in_grid_all_cells, Hc. }
  split; [exact H|].
  exact (proj1 (placeFood_spins_iff_board_full full_board_scenario) H 5%nat
           demo_rng).
Defined.

(** X16. What [placeFood] returns is fixed by the draws: it returns within
    [fuel] rounds exactly when one of the first [fuel] draws is off the
    snake, and then the food is the first such draw, every other field is
    untouched and two raw values per round played were consumed. *)
Theorem placeFood_takes_first_free_draw fuel r g g' r' :
  placeFood fuel r g = Ok (g', r') <->
  exists k, (k < fuel)%nat /\
    ~ In (drawn r k) (snake g) /\
    (forall j, (j < k)%nat -> In (drawn r j) (snake g)) /\
    g' = with_food (drawn r k) g /\ r' = after_rounds r (S k).
Proof.
  split.
  - intros H. apply placeFood_Ok in H.
    destruct H as (k & Hk & Hg & Hr & Hfree & Hbusy). exists k.
    split; [exact Hk|]. split; [apply occupies_not_In, Hfree|].
    split; [|split; assumption].
    intros j Hj. apply occupies_In, Hbusy, Hj.
  - intros (k & Hk & Hfree & Hbusy & -> & ->).
    apply occupies_not_In in Hfree.
    destruct (placeFood_returns k r g fuel Hfree Hk) as (g1 & r1 & E).
    rewrite E. apply placeFood_Ok in E.
    destruct E as (k1 & _ & -> & -> & Hfree1 & Hbusy1).
    assert (k1 = k).
    { destruct (Nat.lt_trichotomy k1 k) as [L|[L|L]]; [|exact L|].
      - specialize (Hbusy k1 L). apply occupies_In in Hbusy. congruence.
      - specialize (Hbusy1 k L). congruence. }
    subst k1. reflexivity.
Qed.

Lemma placeFood_takes_first_free_draw_witness :
  placeFood 3 (tape [20; 15; 19; 15; 7; 9]) eat_scenario
  = Ok (with_food (mkPoint 7 9) eat_scenario,
        after_rounds (tape [20; 15; 19; 15; 7; 9]) 3).
Proof.
  apply (proj2 (placeFood_takes_first_free_draw 3
                  (tape [20; 15; 19; 15; 7; 9]) eat_scenario _ _)).
  exists 2%nat. split; [lia|]. split.
  - vm_compute. intuition discriminate.
  - split; [|split; reflexivity].
    intros [|[|j]] Hj; [vm_compute; auto | vm_compute; auto | lia].
Defined.

(** ** Rendering *)

Lemma tiles_of_app a b : tiles_of (a ++ b) = tiles_of a ++ tiles_of b.
Proof.
  induction a as [|c a IH]; [reflexivity|].
  destruct c; simpl; rewrite IH; reflexivity.
Qed.

Lemma tiles_of_body i cells :
  tiles_of (draw_snake (S i) cells)
  = map (fun p => (tileSnake, pixel_of p)) cells.
Proof.
  revert i. induction cells as [|p rest IH]; intros i; [reflexivity|].
  simpl. rewrite IH. reflexivity.
Qed.

Lemma tiles_of_Draw g :
  tiles_of (Draw g) =
  (tileFood, pixel_of (food g)) ::
  match snake g with
  | [] => []
  | h :: t => (tileHead, pixel_of h) :: map (fun p => (tileSnake, pixel_of p)) t
  end.
Proof.
  unfold Draw. rewrite !tiles_of_app.
  assert (E : forall l : list DrawCmd,
             tiles_of (if gameOver g then l else []) =
             if gameOver g then tiles_of l else []) by (destruct (gameOver g); reflexivity).
  rewrite E. simpl tiles_of at 1 3 4.
  replace (if gameOver g then [] else []) with (@nil (Tile * (Z * Z)))
    by (destruct (gameOver g); reflexivity).
  rewrite !app_nil_r. simpl app. f_equal.
  destruct (snake g) as [|h t]; [reflexivity|].
  simpl. rewrite tiles_of_body. reflexivity.
Qed.

Lemma Draw_positions g :
  map snd (tiles_of (Draw g)) = pixel_of (food g) :: map pixel_of (snake g).
Proof.
  rewrite tiles_of_Draw. destruct (snake g) as [|h t]; [reflexivity|].
  simpl. rewrite map_map. reflexivity.
Qed.

(** X17. What [Draw] puts on the screen, whatever the state: first the food
    tile at the food's cell, then the head tile at the first snake cell, then
    one body tile for each further snake cell, in order -- [1 + len(snake)]
    tiles, the head tile used once and only for index 0. *)
Theorem Draw_tiles g :
  tiles_of (Draw g) =
  (tileFood, pixel_of (food g)) ::
  match snake g with
  | [] => []
  | h :: t => (tileHead, pixel_of h) :: map (fun p => (tileSnake, pixel_of p)) t
  end /\
  length (tiles_of (Draw g)) = S (length (snake g)) /\
  map snd (tiles_of (Draw g)) = pixel_of (food g) :: map pixel_of (snake g).
Proof.
  rewrite tiles_of_Draw. split; [reflexivity|].
  destruct (snake g) as [|h t]; [split; reflexivity|].
  simpl. rewrite length_map, map_map. split; reflexivity.
Qed.

(** On the board a pixel offset is 16 times the coordinate: no wrap. *)
Lemma pixel_of_in_grid p :
  in_grid p -> pixel_of p = (tileSize * X p, tileSize * Y p).
Proof.
  unfold in_grid, gridW, gridH, pixel_of, int_mul, tileSize. intros [Hx Hy].
  rewrite !GoIntFacts.wrap_small by GoIntFacts.int_range.
  f_equal; lia.
Qed.

Lemma NoDup_map_on {A B : Type} (f : A -> B) l :
  (forall x y, In x l -> In y l -> f x = f y -> x = y) ->
  NoDup l -> NoDup (map f l).
Proof.
  intros Hinj Hnd. induction Hnd as [|a l Hin Hnd IH]; [constructor|].
  simpl. constructor.
  - intros I. apply in_map_iff in I. destruct I as (b & E & Hb).
    assert (b = a) by (apply Hinj; [right; exact Hb | left; reflexivity | exact E]).
    subst b. contradiction.
  - apply IH. intros x y Hx Hy. apply Hinj; right; assumption.
Qed.

(** X18. In every reachable state each tile [Draw] puts on the screen lies
    wholly inside the screen [Layout] reports (640 x 480 whatever the outside
    size), at 16 times the coordinates of its cell, and no two tiles are
    drawn at the same place: the food is never hidden under the snake and
    the snake never overdraws itself. *)
Theorem Draw_tiles_fit_and_never_overlap g r outsideWidth outsideHeight :
  reachable g r ->
  Layout outsideWidth outsideHeight = (640, 480) /\
  (forall t x y, In (t, (x, y)) (tiles_of (Draw g)) ->
     0 <= x /\ x + tileSize <= fst (Layout outsideWidth outsideHeight) /\
     0 <= y /\ y + tileSize <= snd (Layout outsideWidth outsideHeight) /\
     exists c, in_grid c /\ x = tileSize * X c /\ y = tileSize * Y c) /\
  NoDup (map snd (tiles_of (Draw g))).
Proof.
  intros R. pose proof (reachable_Inv g r R) as I.
  pose proof (inv_cells g I) as F. rewrite Forall_forall in F.
  split; [reflexivity|]. split.
  - intros t x y Hin.
    assert (Hc : exists c, in_grid c /\ (x, y) = pixel_of c).
    { apply (in_map snd) in Hin. change (snd (t, (x, y))) with (x, y) in Hin.
      rewrite (Draw_positions g) in Hin.
      destruct Hin as [Hf | Hs].
      - exists (food g). split; [apply I | symmetry; exact Hf].
      - apply in_map_iff in Hs. destruct Hs as (c & Hc & Hin).
        exists c. split; [apply F, Hin | symmetry; exact Hc]. }
    destruct Hc as (c & Hg & E). rewrite (pixel_of_in_grid c Hg) in E.
    assert (Exy : x = tileSize * X c /\ y = tileSize * Y c)
      by (split; congruence).
    destruct Exy as [-> ->]. clear E. pose proof Hg as [Hx Hy].
    change (fst (Layout outsideWidth outsideHeight)) with 640.
    change (snd (Layout outsideWidth outsideHeight)) with 480.
    unfold gridW, gridH in Hx, Hy. unfold tileSize.
    split; [lia|]. split; [lia|]. split; [lia|]. split; [lia|].
    exists c. split; [exact Hg | split; reflexivity].
  - rewrite (Draw_positions g).
    change (pixel_of (food g) :: map pixel_of (snake g))
      with (map pixel_of (food g :: snake g)).
    apply NoDup_map_on.
    + intros p q Hp Hq.
      assert (Gp : in_grid p) by (destruct Hp as [<-|Hp]; [apply I | apply F, Hp]).
      assert (Gq : in_grid q) by (destruct Hq as [<-|Hq]; [apply I | apply F, Hq]).
      rewrite (pixel_of_in_grid p Gp), (pixel_of_in_grid q Gq).
      intros E'.
      assert (Exy : tileSize * X p = tileSize * X q /\
                    tileSize * Y p = tileSize * Y q) by (split; congruence).
      unfold tileSize in Exy. destruct Exy as [Ex Ey].
      destruct p as [px py], q as [qx qy]. cbn [X Y] in Ex, Ey.
      f_equal; lia.
    + constructor; [apply I | apply I].
Qed.

Lemma Draw_tiles_fit_and_never_overlap_witness :
  reachable speedup_scenario (after_rounds demo_rng 5) /\
  NoDup (map snd (tiles_of (Draw speedup_scenario))) /\
  In (tileHead, (384, 240)) (tiles_of (Draw speedup_scenario)).
Proof.
  split; [exact speedup_scenario_reachable|].
  destruct (Draw_tiles_fit_and_never_overlap speedup_scenario _ 800 600
              speedup_scenario_reachable) as (_ & _ & Hnd).
  split; [exact Hnd|]. vm_compute. auto.
Defined.

(** ** Where a tick can hang, and how the snake steps *)

(** X19. A tick can be held up only by the food loop: it is still running
    after [fuel] rounds exactly when the game is running at a movement tick
    whose new head is on the board, off the snake and on the food, and each
    of the first [fuel] draws fell on the grown snake.  In every other case
    the tick has returned or panicked without a single round. *)
Theorem tick_spins_only_in_food_loop fuel r g :
  tick fuel r g = Spin <->
  running g /\ throttle_boundary g /\
  new_head g = Some (food g) /\ in_grid (food g) /\ ~ In (food g) (snake g) /\
  forall j, (j < fuel)%nat -> In (drawn r j) (food g :: snake g).
Proof.
  split.
  - intros H. destruct (gameOver g) eqn:Hgo.
    { rewrite tick_game_over in H by exact Hgo. discriminate. }
    destruct (GoInt.incr (tickCount g) <? tickSpeed g) eqn:Hb.
    { rewrite tick_throttled in H;
        [discriminate | exact Hgo | unfold throttle_boundary; congruence]. }
    destruct (snake g) as [|h t] eqn:Hs.
    { rewrite tick_empty in H by assumption. discriminate. }
    pose proof (new_head_cons g h t Hs) as Hnh.
    rewrite (tick_boundary fuel r g h t Hgo Hb Hs) in H. cbv zeta in H.
    destruct (out_of_bounds _) eqn:Hw; [discriminate|].
    destruct (occupies _ _) eqn:Hself; [discriminate|].
    destruct (Point_eqb _ _) eqn:Hfood; [|discriminate].
    apply Point_eqb_eq in Hfood. rewrite Hfood in *.
    apply out_of_bounds_false in Hw. apply occupies_not_In in Hself.
    rewrite <- Hs in *.
    refine (conj Hgo (conj Hb (conj Hnh (conj Hw (conj Hself _))))).
    intros j Hj. destruct (fed_fields (food g) g) as (Fs & _).
    apply occupies_In. rewrite <- Fs.
    destruct (occupies (snake (fed (food g) g)) (drawn r j)) eqn:E;
      [reflexivity|].
    destruct (placeFood_returns j r _ fuel E Hj) as (g' & r' & E').
    rewrite E' in H. discriminate.
  - intros (Hrun & Hb & Hnh & Hg & Hfree & Hbusy).
    destruct (new_head_inv g _ Hnh) as (h & t & Hs & Hp).
    rewrite (tick_boundary fuel r g h t Hrun Hb Hs). cbv zeta. rewrite <- Hp.
    rewrite (proj2 (out_of_bounds_false _) Hg).
    rewrite (proj2 (occupies_not_In _ _) Hfree), Point_eqb_refl.
    apply placeFood_spins. intros j Hj.
    destruct (fed_fields (food g) g) as (-> & _).
    apply occupies_In, Hbusy, Hj.
Qed.

Lemma tick_spins_only_in_food_loop_witness :
  tick 2 (tape [21; 15; 20; 15]) eat_scenario = Spin.
Proof.
  apply (proj2 (tick_spins_only_in_food_loop 2 (tape [21; 15; 20; 15])
                  eat_scenario)).
  split; [reflexivity|]. split; [vm_compute; reflexivity|].
  split; [vm_compute; reflexivity|].
  split; [unfold in_grid, gridW, gridH; simpl; lia|].
  split; [simpl; intuition discriminate|].
  intros [|[|j]] Hj; [vm_compute; auto | vm_compute; auto | lia].
Defined.

(** X20. In every reachable state the moving and the buffered direction are
    each one of the four unit deltas -- never diagonal, never zero -- and the
    cell the head moves to next is the head plus the buffered direction with
    no wrap-around: a cell sharing an edge with the head. *)
Theorem snake_steps_one_cell g r :
  reachable g r ->
  (exists i, dir g = delta i) /\ (exists i, nextDir g = delta i) /\
  exists h t, snake g = h :: t /\
    new_head g = Some (mkPoint (X h + X (nextDir g)) (Y h + Y (nextDir g))) /\
    adjacent (mkPoint (X h + X (nextDir g)) (Y h + Y (nextDir g))) h.
Proof.
  intros R. pose proof (reachable_Inv g r R) as I.
  split; [apply I|]. split; [apply I|].
  destruct (snake g) as [|h t] eqn:Hs; [exfalso; apply (inv_nonempty g I), Hs|].
  exists h, t. split; [reflexivity|].
  split; [apply (new_head_no_wrap g h t I Hs)|].
  destruct (inv_nextDir g I) as [i Hi]. rewrite Hi.
  unfold adjacent. destruct i; simpl; lia.
Qed.

Lemma snake_steps_one_cell_witness :
  reachable eat_scenario (after_rounds demo_rng 1) /\
  new_head eat_scenario = Some (mkPoint 21 15) /\
  adjacent (mkPoint 21 15) (mkPoint 20 15).
Proof.
  split; [exact eat_scenario_reachable|].
  destruct (snake_steps_one_cell _ _ eat_scenario_reachable)
    as (_ & _ & h & t & Hs & Hnh & Hadj).
  injection Hs as <- <-. split; [exact Hnh | exact Hadj].
Defined.
